(** * Monte Carlo yield analysis: a shallow embedding of
      [monte_carlo/analysis.py] and the properties of its two functions,
      [simulate_yield_distribution] and [summarize_and_plot_yields].

    Numbers.  Python integers are [Z].  The simulator is written once over
    an interface of float arithmetic, [Number], which is read in three
    ways.  [binary64] reads Python floats as the IEEE 754 doubles they are
    and evaluates concrete runs.  [rounded rnd] reads them as the
    rationals a rounding [rnd] keeps, every operation being the exact one
    followed by [rnd]: statements proved for every rounding hold of the
    doubles as long as no operation overflows, and [round53] is the
    rounding of the doubles.  [rational] is the case without rounding,
    exact rationals [Q] with the equality [Qeq] (written [==]), the real
    values of the specification.  Statements that need no arithmetic are
    proved for every instance of [Number].  Integers are taken to be
    within the range of the doubles: beyond it Python raises
    [OverflowError] where an integer meets a float, which is not
    modelled.  The summarizer is modelled over [rational] only: the order
    in which numpy sums and selects is not modelled.  The only non-finite
    float the summarizer can meet, numpy's [nan] for the mean of an empty
    array, is a separate constructor of [npfloat].

    Effects.  The program draws from the module-global generator of Python's
    [random]; the generator is modelled by the tape of values its seed
    determines together with a cursor, and is threaded through the code by a
    small state-and-exception monad. *)

From Stdlib Require Import ZArith QArith Qround Qabs Qpower List Lia Lqa.
From Stdlib Require Import Bool.
From Stdlib Require Import Permutation Sorted.
From Stdlib Require PrimFloat Uint63 FloatOps SpecFloat.
Import ListNotations.

Open Scope Q_scope.

(** ** Exceptions and results *)

(** [ZeroDivisionError], [IndexError] and [ValueError] are Python's built-in
    exceptions, the only ones the modelled code can raise.
    [InvalidConfiguration] and [EmptyDistribution] are the two failures the
    specification names; the source defines neither of them and no
    definition below constructs them. *)
Inductive exn : Type :=
| ZeroDivisionError
| IndexError
| ValueError
| InvalidConfiguration
| EmptyDistribution.

Inductive result (A : Type) : Type :=
| Ok (a : A)
| Raise (e : exn).

Arguments Ok {A} a.
Arguments Raise {A} e.

(** ** Float arithmetic *)

(** The operations the simulator applies to floats. *)
Class Number (F : Type) : Type := {
  of_int : Z -> F;           (* the float of a Python integer *)
  add : F -> F -> F;
  sub : F -> F -> F;
  mul : F -> F -> F;
  div : F -> F -> F;         (* the quotient by a non-zero divisor *)
  ltb : F -> F -> bool;      (* [x < y] *)
  is_zero : F -> bool        (* [x == 0] *)
}.

Declare Scope num_scope.
Delimit Scope num_scope with num.
Infix "+" := add : num_scope.
Infix "-" := sub : num_scope.
Infix "*" := mul : num_scope.
Infix "/" := div : num_scope.
Infix "<?" := ltb : num_scope.

(** The comparison [x < y] on rationals. *)
Definition Qltb (x y : Q) : bool := negb (Qle_bool y x).

(** Floats as exact rationals. *)
#[export] Instance rational : Number Q := {|
  of_int := inject_Z;
  add := Qplus;
  sub := Qminus;
  mul := Qmult;
  div := Qdiv;
  ltb := Qltb;
  is_zero := fun x => Qeq_bool x 0
|}.

(** The double nearest to an integer, ties to even, as Python converts an
    integer that meets a float; infinite where Python raises
    [OverflowError]. *)
Definition float_of_int (z : Z) : PrimFloat.float :=
  FloatOps.SF2Prim
    (SpecFloat.binary_normalize FloatOps.prec FloatOps.emax z 0 false).

(** Floats as IEEE 754 doubles, with the correctly rounded operations. *)
#[export] Instance binary64 : Number PrimFloat.float := {|
  of_int := float_of_int;
  add := PrimFloat.add;
  sub := PrimFloat.sub;
  mul := PrimFloat.mul;
  div := PrimFloat.div;
  ltb := PrimFloat.ltb;
  is_zero := PrimFloat.is_zero
|}.

(** ** The random source *)

(** The state of [random]'s generator: [tape] is the sequence of floats the
    seeded generator produces, [pos] the number of values consumed so far. *)
Record rng (F : Type) : Type := mk_rng { tape : nat -> F; pos : nat }.

Arguments mk_rng {F} tape pos.
Arguments tape {F} r i.
Arguments pos {F} r.

(** The generator after [k] further draws. *)
Definition skip {F : Type} (k : nat) (s : rng F) : rng F :=
  mk_rng (tape s) (pos s + k).

(** ** simulate_yield_distribution *)

(** The keyword parameters of [simulate_yield_distribution].  [range]
    accepts integers only, so [num_policies] and [simulations] are [Z];
    the two amounts and the two hazard bounds are floats (an integer
    argument stands for the float of the same value). *)
Record params (F : Type) : Type := mk_params {
  num_policies : Z;
  annual_premium : F;
  claim_amount : F;
  simulations : Z;
  p_min : F;
  p_max : F
}.

Arguments mk_params {F}.
Arguments num_policies {F} p.
Arguments annual_premium {F} p.
Arguments claim_amount {F} p.
Arguments simulations {F} p.
Arguments p_min {F} p.
Arguments p_max {F} p.

Section Simulator.

Context {F : Type} {num : Number F}.

Local Open Scope num_scope.

(** Computations: generator state and exceptions. *)
Definition M (A : Type) : Type := rng F -> result (A * rng F).

Definition ret {A : Type} (a : A) : M A := fun s => Ok (a, s).

Definition bind {A B : Type} (m : M A) (f : A -> M B) : M B :=
  fun s => match m s with
           | Ok (a, s') => f a s'
           | Raise e => Raise e
           end.

Definition raise {A : Type} (e : exn) : M A := fun _ => Raise e.

Notation "x <- m ;; k" := (bind m (fun x => k))
  (at level 61, m at next level, right associativity).

(** [random.random()]: the next value of the tape. *)
Definition random : M F :=
  fun s => Ok (tape s (pos s), mk_rng (tape s) (S (pos s))).

(** [random.uniform(a, b)] is [a + (b - a) * self.random()]. *)
Definition uniform (a b : F) : M F :=
  u <- random ;; ret (a + (b - a) * u).

(** Python's true division [x / y]. *)
Definition truediv (x y : F) : M F :=
  if is_zero y then raise ZeroDivisionError else ret (x / y).

(** [sum(1 for _ in range(n) if random.random() < p)]: [n] draws, counting
    those strictly below [p]. *)
Fixpoint count_fires (n : nat) (p : F) : M Z :=
  match n with
  | O => ret 0%Z
  | S n' =>
      u <- random ;;
      k <- count_fires n' p ;;
      ret ((if (u <? p)%num then 1 else 0) + k)%Z
  end.

(** Steps 3 and 4 of the loop body: the yield percentage for [fires]
    events, [total_premiums] being computed once before the loop. *)
Definition yield_of_fires (c : params F) (total_premiums : F) (fires : Z)
  : M F :=
  let total_payout := of_int fires * claim_amount c in
  let net_profit := total_premiums - total_payout in
  r <- truediv net_profit total_premiums ;;
  ret (r * of_int 100).

(** One iteration of the loop: the yield percentage of one simulated year.
    [range(num_policies)] is empty for a negative bound, hence [Z.to_nat]. *)
Definition trial (c : params F) (total_premiums : F) : M F :=
  p <- uniform (p_min c) (p_max c) ;;
  fires <- count_fires (Z.to_nat (num_policies c)) p ;;
  yield_of_fires c total_premiums fires.

(** [for _ in range(n): ... yields.append(yield_percentage)]. *)
Fixpoint trials (c : params F) (total_premiums : F) (n : nat)
         (yields : list F) : M (list F) :=
  match n with
  | O => ret yields
  | S n' =>
      yield_percentage <- trial c total_premiums ;;
      trials c total_premiums n' (yields ++ [yield_percentage])
  end.

Definition total_premiums_of (c : params F) : F :=
  of_int (num_policies c) * annual_premium c.

Definition simulate_yield_distribution (c : params F) : M (list F) :=
  let total_premiums := total_premiums_of c in
  trials c total_premiums (Z.to_nat (simulations c)) [].

(** What a caller observes of a computation: its value or its exception. *)
Definition outcome {A : Type} (r : result (A * rng F)) : result A :=
  match r with
  | Ok (a, _) => Ok a
  | Raise e => Raise e
  end.

(** The number of draws one trial consumes: one for the hazard rate and one
    per policy. *)
Definition draws_per_trial (c : params F) : nat :=
  S (Z.to_nat (num_policies c)).

(** Two generators produce the same next [k] values. *)
Definition same_draws (k : nat) (s1 s2 : rng F) : Prop :=
  forall i : nat, (i < k)%nat ->
    tape s1 (pos s1 + i) = tape s2 (pos s2 + i).

(** The value the loop body appends when [fires] events occurred. *)
Definition yield_value (c : params F) (total_premiums : F) (fires : Z) : F :=
  (total_premiums - of_int fires * claim_amount c) / total_premiums
  * of_int 100.

(** The worst yield the specification allows: every policy has an event. *)
Definition lower_bound (c : params F) : F :=
  of_int 100 - claim_amount c / annual_premium c * of_int 100.

End Simulator.

(** The default values of the parameters. *)
Definition default_params : params Q :=
  mk_params 1000 3000 150000 10000 (3 # 1000) (17 # 1000).

(** [random.random()] returns floats of the half-open interval [0, 1). *)
Definition valid_rng (s : rng Q) : Prop :=
  forall i : nat, 0 <= tape s i /\ tape s i < 1.

(** The configurations the specification calls valid. *)
Definition valid_params (c : params Q) : Prop :=
  (0 < num_policies c)%Z /\ (0 < simulations c)%Z /\
  0 < annual_premium c /\ 0 < claim_amount c /\
  0 <= p_min c /\ p_min c <= p_max c /\ p_max c <= 1.

(** ** numpy: mean and percentile *)

(** numpy is a library the program imports.  The two functions it calls are
    modelled after numpy's implementation (release 1.22 and later):
    [np.mean] as the sum over the count, [np.percentile] as [_quantile]
    with its helpers [_get_indexes], [_get_gamma] and [_lerp] for the
    default method, [linear]. *)

(** A float64 scalar returned by numpy: [nan] or a finite value. *)
Inductive npfloat : Type :=
| nan
| fin (x : Q).

(** The second monad: exceptions without generator state. *)
Definition rbind {A B : Type} (m : result A) (f : A -> result B) : result B :=
  match m with
  | Ok a => f a
  | Raise e => Raise e
  end.

Notation "x <~ m ;; k" := (rbind m (fun x => k))
  (at level 61, m at next level, right associativity).

(** [np.mean]: the sum of the elements divided by their number; for an
    empty array the quotient 0/0 is [nan] (numpy only warns). *)
Definition np_sum (a : list Q) : Q := fold_left Qplus a 0.

Definition np_mean (a : list Q) : npfloat :=
  match length a with
  | O => nan
  | S _ => fin (np_sum a / inject_Z (Z.of_nat (length a)))
  end.

(** Sorting by insertion; it stands for [arr.partition], which puts the
    order statistics that are read afterwards at their sorted positions. *)
Fixpoint insert (x : Q) (l : list Q) : list Q :=
  match l with
  | [] => [x]
  | h :: t => if Qle_bool x h then x :: l else h :: insert x t
  end.

Definition sort (l : list Q) : list Q := fold_right insert [] l.

(** [arr[i]] for an integer [i]: negative indices count from the end, an
    index out of range raises [IndexError]. *)
Definition getitem (arr : list Q) (i : Z) : result Q :=
  let n := Z.of_nat (length arr) in
  let j := if (i <? 0)%Z then (i + n)%Z else i in
  if ((0 <=? j) && (j <? n))%Z then
    match nth_error arr (Z.to_nat j) with
    | Some x => Ok x
    | None => Raise IndexError
    end
  else Raise IndexError.

(** [_get_indexes]: the two neighbours of the virtual index. *)
Definition get_indexes (virtual_index : Q) (valid_values_count : nat) : Z * Z :=
  let previous_index := Qfloor virtual_index in
  let next_index := (previous_index + 1)%Z in
  let '(previous_index, next_index) :=
    if Qle_bool (inject_Z (Z.of_nat valid_values_count) - 1) virtual_index
    then ((-1)%Z, (-1)%Z) else (previous_index, next_index) in
  if Qltb virtual_index 0 then (0%Z, 0%Z) else (previous_index, next_index).

(** [_lerp(a, b, t)]: [a + (b - a) * t], replaced by
    [b - (b - a) * (1 - t)] where [t >= 0.5]. *)
Definition lerp (a b t : Q) : Q :=
  let diff_b_a := b - a in
  if Qle_bool (1 # 2) t then b - diff_b_a * (1 - t) else a + diff_b_a * t.

(** [_quantile] with the default method, [linear]: the virtual index is
    [(n - 1) * quantile] and gamma its distance to the previous index.
    [arr[-1]] is read for the nan check and fails on an empty array. *)
Definition quantile (arr : list Q) (quantiles : Q) : result Q :=
  let values_count := length arr in
  let virtual_index := (inject_Z (Z.of_nat values_count) - 1) * quantiles in
  let '(previous_index, next_index) := get_indexes virtual_index values_count in
  let arr := sort arr in
  _ <~ getitem arr (-1) ;;
  previous <~ getitem arr previous_index ;;
  next <~ getitem arr next_index ;;
  let gamma := virtual_index - inject_Z previous_index in
  Ok (lerp previous next gamma).

(** [np.percentile(a, q)]: [q] is divided by 100 and must lie in [0, 1]. *)
Definition np_percentile (a : list Q) (q : Q) : result Q :=
  let q := q / 100 in
  if Qle_bool 0 q && Qle_bool q 1 then quantile a q else Raise ValueError.

(** ** summarize_and_plot_yields *)

(** What the function prints and draws: the mean and the two percentiles.
    (The Python function itself returns [None]; the formatting of the
    report and the histogram are not modelled.) *)
Record report : Type := mk_report {
  mean_yield : npfloat;
  p5 : Q;
  p95 : Q
}.

Definition summarize_and_plot_yields (yields : list Q) : result report :=
  let yields_np := yields in
  let mean_yield := np_mean yields_np in
  p5 <~ np_percentile yields_np 5 ;;
  p95 <~ np_percentile yields_np 95 ;;
  Ok (mk_report mean_yield p5 p95).

(** ** What the statements below speak of *)

(** Arrays equal element by element as floats. *)
Definition eqlist : list Q -> list Q -> Prop := Forall2 Qeq.

(** The linear-interpolation percentile in the words of the
    specification, over the sorted values: the rank is
    [q / 100 * (n - 1)], and the result interpolates between the sorted
    values at the floor and at the ceiling of the rank. *)
Definition spec_percentile (sorted : list Q) (q : Q) : Q :=
  let n := inject_Z (Z.of_nat (length sorted)) in
  let rank := q / 100 * (n - 1) in
  let below := nth (Z.to_nat (Qfloor rank)) sorted 0 in
  let above := nth (Z.to_nat (Qceiling rank)) sorted 0 in
  below + (rank - inject_Z (Qfloor rank)) * (above - below).

(** The sum of the samples, as the arithmetic average of the specification
    uses it. *)
Fixpoint sum_of (xs : list Q) : Q :=
  match xs with
  | [] => 0
  | x :: t => x + sum_of t
  end.

(** The arithmetic average in the words of the specification: the sum of
    the samples divided by their count. *)
Definition arithmetic_average (xs : list Q) : Q :=
  sum_of xs / inject_Z (Z.of_nat (length xs)).

(** The exact value of a finite double. *)
Definition Q_of_float (x : PrimFloat.float) : option Q :=
  match FloatOps.Prim2SF x with
  | SpecFloat.S754_zero _ => Some 0
  | SpecFloat.S754_finite s m e =>
      let v := match e with
               | Z0 => inject_Z (Z.pos m)
               | Zpos p => inject_Z (Z.pos m * 2 ^ Z.pos p)
               | Zneg p => Z.pos m # 2 ^ p
               end in
      Some (if s then - v else v)
  | _ => None
  end.

(** ** Concrete inputs *)

(** A degenerate generator whose every draw is [u]. *)
Definition const_rng {F : Type} (u : F) : rng F := mk_rng (fun _ => u) 0.

(** A generator cycling through 0, 1/5, 2/5, 3/5, 4/5. *)
Definition cycle_rng : rng Q :=
  mk_rng (fun i => inject_Z (Z.of_nat (i mod 5)) / 5) 0.

(** The generator [cycle_rng], 25 values further on. *)
Definition cycle_rng_later : rng Q :=
  mk_rng (fun i => inject_Z (Z.of_nat (i mod 5)) / 5) 25.

(** A small valid configuration: 3 policies, 4 trials. *)
Definition small_params : params Q := mk_params 3 1000 50000 4 0 1.

(** Trial count 0 with an otherwise default configuration. *)
Definition no_trials : params Q :=
  mk_params 1000 3000 150000 0 (3 # 1000) (17 # 1000).

(** A negative charge and inverted hazard bounds. *)
Definition negative_charge : params Q :=
  mk_params 2 (-1000) 50000 1 (3 # 4) (1 # 4).

(** Population size 0 with one trial. *)
Definition no_policies : params Q :=
  mk_params 0 3000 150000 1 (3 # 1000) (17 # 1000).

(** The first end-to-end scenario: hazard bounds [0.0, 0.0]. *)
Definition scenario_none {F : Type} {num : Number F} : params F :=
  mk_params 100 (of_int 1000) (of_int 50000) 5000 (of_int 0) (of_int 0).

(** The second end-to-end scenario: hazard bounds [1.0, 1.0]. *)
Definition scenario_all {F : Type} {num : Number F} : params F :=
  mk_params 100 (of_int 1000) (of_int 50000) 5000 (of_int 1) (of_int 1).

(** One policy, charge 3.0, loss 1.0, one trial, hazard bounds
    [1.0, 1.0]: a valid configuration in which the policy has its event. *)
Definition thirds {F : Type} {num : Number F} : params F :=
  mk_params 1 (of_int 3) (of_int 1) 1 (of_int 1) (of_int 1).

(** The double 0.5. *)
Definition half : PrimFloat.float := div (of_int 1) (of_int 2).

Ltac solve_valid :=
  unfold valid_params; repeat split; vm_compute;
  solve [reflexivity | discriminate].

(** Reading the arithmetic of the simulator as that of the rationals. *)
Ltac rational_arith :=
  cbn [of_int add sub mul div ltb is_zero rational] in *;
  change (inject_Z 100) with 100 in *.

(** ** The script *)

(** The [__main__] block: one run with the default parameters, then the
    summary of the distribution it returned.  The generator is left where
    the run left it. *)
Definition main (s : rng Q) : result (report * rng Q) :=
  match simulate_yield_distribution default_params s with
  | Ok (yields, s') =>
      match summarize_and_plot_yields yields with
      | Ok r => Ok (r, s')
      | Raise e => Raise e
      end
  | Raise e => Raise e
  end.

(** ** Calls that differ in some keyword arguments *)

(** The same call with another trial count. *)
Definition with_simulations {F : Type} (c : params F) (t : Z) : params F :=
  mk_params (num_policies c) (annual_premium c) (claim_amount c) t
            (p_min c) (p_max c).

(** The next [n] values the generator will produce. *)
Definition next_draws {F : Type} (n : nat) (s : rng F) : list F :=
  map (fun i => tape s (pos s + i)%nat) (seq 0 n).

(** Population size -5 with three trials. *)
Definition negative_population : params Q :=
  mk_params (-5) 3000 150000 3 (3 # 1000) (17 # 1000).

(** ** Rounded arithmetic *)

(** Floats as the rationals a rounding function keeps: every operation is
    the exact one followed by the rounding [rnd], and comparisons are
    exact.  With the identity for [rnd] this is the arithmetic of
    [rational]; with [round53] below it is the arithmetic of IEEE 754
    doubles for as long as no result leaves the range of the normal
    doubles. *)
Definition rounded (rnd : Q -> Q) : Number Q := {|
  of_int := fun z => rnd (inject_Z z);
  add := fun x y => rnd (x + y);
  sub := fun x y => rnd (x - y);
  mul := fun x y => rnd (x * y);
  div := fun x y => rnd (x / y);
  ltb := Qltb;
  is_zero := fun x => Qeq_bool x 0
|}.

(** What the statements on rounded arithmetic ask of a rounding: equal
    rationals round alike, rounding keeps the order, a rounded value is
    left as it is, and the integers up to [2^53] are left as they are.
    Rounding to the nearest double has these properties on the rationals
    that do not overflow. *)
Record rounding (rnd : Q -> Q) : Prop := {
  rnd_compat : forall x y : Q, x == y -> rnd x == rnd y;
  rnd_mono : forall x y : Q, x <= y -> rnd x <= rnd y;
  rnd_idem : forall x : Q, rnd (rnd x) == rnd x;
  rnd_int : forall z : Z,
      (Z.abs z <= 2 ^ 53)%Z -> rnd (inject_Z z) == inject_Z z
}.

(** The values a rounding leaves as they are: the floats. *)
Definition representable (rnd : Q -> Q) (x : Q) : Prop := rnd x == x.

(** The sample of a trial in which every policy has an event, computed as
    the loop body computes it. *)
Definition worst_yield (rnd : Q -> Q) (c : params Q) : Q :=
  yield_value (num := rounded rnd) c
              (total_premiums_of (num := rounded rnd) c) (num_policies c).

(** The binary exponent of a positive rational [x]: the [e] with
    [2^e <= x < 2^(e+1)]. *)
Definition mag (x : Q) : Z :=
  let e := (Z.log2 (Qnum x) - Z.log2 (Z.pos (Qden x)))%Z in
  if Qle_bool (2 ^ e) x then e else (e - 1)%Z.

(** The integer nearest to [x], the even one of the two when [x] lies
    half-way. *)
Definition round_half_even (x : Q) : Z :=
  let f := Qfloor x in
  match Qcompare (x - inject_Z f) (1 # 2) with
  | Lt => f
  | Gt => (f + 1)%Z
  | Eq => if Z.even f then f else (f + 1)%Z
  end.

(** The nearest float with a mantissa of 53 bits, for a positive [x]. *)
Definition round53_pos (x : Q) : Q :=
  let e := mag x in
  inject_Z (round_half_even (x * 2 ^ (52 - e))) * 2 ^ (e - 52).

(** Rounding to the nearest float with a mantissa of 53 bits, ties to
    even: the rounding of IEEE 754 doubles, without their bounds on the
    exponent. *)
Definition round53 (x : Q) : Q :=
  match Qnum x with
  | Z0 => 0
  | Zpos _ => round53_pos x
  | Zneg _ => - round53_pos (- x)
  end.

(** The unit roundoff of the doubles, [2^-53]. *)
Definition unit_roundoff : Q := 1 # 9007199254740992.

(** A rounding whose relative error is at most the unit roundoff, as that
    of the doubles is on the normal range. *)
Definition accurate (rnd : Q -> Q) : Prop :=
  forall x : Q, Qabs (rnd x - x) <= unit_roundoff * Qabs x.

(** How far five rounded operations can move the worst yield away from the
    bound of the specification: [2^-43 * (1 + loss / charge)]. *)
Definition tolerance (c : params Q) : Q :=
  (1 # 8796093022208) * (1 + claim_amount c / annual_premium c).

(** One policy, charge 1000.0, loss 50000.0, one trial, hazard bounds
    [0.25, 0.75]: a valid configuration. *)
Definition quarters {F : Type} {num : Number F} : params F :=
  mk_params 1 (of_int 1000) (of_int 50000) 1
            (div (of_int 1) (of_int 4)) (div (of_int 3) (of_int 4)).

(** A generator whose first draw is [0.5 + 2^-53] and whose later draws are
    [0.5]. *)
Definition tie_rng {F : Type} {num : Number F} : rng F :=
  mk_rng (fun i => match i with
                   | O => div (of_int 4503599627370497)
                              (of_int 9007199254740992)
                   | S _ => div (of_int 1) (of_int 2)
                   end) 0.

(** Whether a double has the exact value [q]. *)
Definition same_value (x : PrimFloat.float) (q : Q) : bool :=
  match Q_of_float x with
  | Some r => Qeq_bool r q
  | None => false
  end.

(** Whether the four operations and the comparison of [binary64] at two
    doubles give what [rounded round53] gives at their exact values. *)
Definition agree_at (x y : PrimFloat.float) : bool :=
  match Q_of_float x, Q_of_float y with
  | Some a, Some b =>
      same_value (add x y) (add (Number := rounded round53) a b)
      && same_value (sub x y) (sub (Number := rounded round53) a b)
      && same_value (mul x y) (mul (Number := rounded round53) a b)
      && same_value (div x y) (div (Number := rounded round53) a b)
      && Bool.eqb (ltb x y) (ltb (Number := rounded round53) a b)
  | _, _ => false
  end.

(** A dozen doubles: 3.0, 1/3, 0.1, 0.7, 100.0, 150000.0, 0.003, 0.017,
    2^53 - 1, -2^-40, -4900.0 and 0.5 + 2^-53. *)
Definition some_doubles : list PrimFloat.float :=
  [of_int 3; div (of_int 1) (of_int 3); div (of_int 1) (of_int 10);
   div (of_int 7) (of_int 10); of_int 100; of_int 150000;
   div (of_int 3) (of_int 1000); div (of_int 17) (of_int 1000);
   of_int 9007199254740991; div (of_int (-1)) (of_int 1099511627776);
   of_int (-4900);
   div (of_int 4503599627370497) (of_int 9007199254740992)].

(** Fifty policies, twenty trials, hazard bounds [0.1, 0.9]; the charge
    is the double nearest to 0.7 and the loss the double nearest to
    100/3. *)
Definition pool {F : Type} {num : Number F} : params F :=
  mk_params 50 (div (of_int 7) (of_int 10)) (div (of_int 100) (of_int 3)) 20
            (div (of_int 1) (of_int 10)) (div (of_int 9) (of_int 10)).

(** A generator whose draws are the floats nearest to [k / 10007], [k]
    running through the residues of [7919 * i + 13] modulo 10007. *)
Definition scattered_rng {F : Type} {num : Number F} : rng F :=
  mk_rng (fun i => div (of_int ((7919 * Z.of_nat i + 13) mod 10007))
                       (of_int 10007)) 0.

(** Whether a list of doubles has the exact values of a list of
    rationals. *)
Fixpoint same_values (xs : list PrimFloat.float) (qs : list Q) : bool :=
  match xs, qs with
  | [], [] => true
  | x :: xs', q :: qs' => same_value x q && same_values xs' qs'
  | _, _ => false
  end.

(** The default call, its amounts and hazard bounds read as floats:
    charge 3000.0, loss 150000.0, bounds 0.003 and 0.017. *)
Definition default_doubles {F : Type} {num : Number F} : params F :=
  mk_params 1000 (of_int 3000) (of_int 150000) 10000
            (div (of_int 3) (of_int 1000)) (div (of_int 17) (of_int 1000)).

(** * Properties *)

(** ** For every float arithmetic *)

Section SimulatorFacts.

Context {F : Type} {num : Number F}.

(** *** The generator *)

Lemma skip_0 (s : rng F) : skip 0 s = s.
Proof.
  destruct s as [t p]. unfold skip. simpl. f_equal. lia.
Qed.

Lemma skip_skip (j k : nat) (s : rng F) :
  skip k (skip j s) = skip (j + k) s.
Proof.
  unfold skip. simpl. f_equal. lia.
Qed.

Lemma random_step (s : rng F) : random s = Ok (tape s (pos s), skip 1 s).
Proof.
  unfold random, skip. do 3 f_equal. lia.
Qed.

(** *** Counting the events of one year *)

(** The count is total, consumes exactly [n] draws and lies in [0, n]. *)
Lemma count_fires_spec (n : nat) (p : F) (s : rng F) :
  exists k : Z,
    count_fires n p s = Ok (k, skip n s) /\ (0 <= k <= Z.of_nat n)%Z.
Proof.
  revert s. induction n as [|n IH]; intros s.
  - exists 0%Z. simpl. unfold ret. rewrite skip_0. split; [reflexivity | lia].
  - destruct (IH (skip 1 s)) as [k [Hk Hr]].
    exists ((if ltb (tape s (pos s)) p then 1 else 0) + k)%Z.
    split.
    + simpl. unfold bind. rewrite random_step, Hk. unfold ret.
      rewrite skip_skip. reflexivity.
    + destruct (ltb (tape s (pos s)) p); lia.
Qed.

(** *** Runs whose total charge is not zero *)

Section NonZeroTotal.

Variable c : params F.
Variable total : F.
Hypothesis total_nonzero : is_zero total = false.

Lemma yield_of_fires_ok (k : Z) (s : rng F) :
  yield_of_fires c total k s = Ok (yield_value c total k, s).
Proof.
  unfold yield_of_fires, truediv, bind. now rewrite total_nonzero.
Qed.

(** A trial succeeds, consumes [draws_per_trial] draws and yields the
    value of some event count between 0 and the population size. *)
Lemma trial_ok (s : rng F) :
  exists k : Z,
    (0 <= k <= Z.of_nat (Z.to_nat (num_policies c)))%Z /\
    trial c total s = Ok (yield_value c total k, skip (draws_per_trial c) s).
Proof.
  unfold trial, uniform, bind. rewrite random_step. unfold ret.
  destruct (count_fires_spec (Z.to_nat (num_policies c))
              (add (p_min c) (mul (sub (p_max c) (p_min c))
                                  (tape s (pos s)))) (skip 1 s))
    as [k [Hk Hr]].
  exists k. split; [exact Hr|].
  rewrite Hk, yield_of_fires_ok, skip_skip. reflexivity.
Qed.

(** The loop appends one sample per trial, in the order of the trials,
    each trial starting where the previous one left the generator. *)
Lemma trials_ok (n : nat) :
  forall (yields : list F) (s : rng F),
  exists ys : list F,
    trials c total n yields s
      = Ok (yields ++ ys, skip (n * draws_per_trial c) s) /\
    length ys = n /\
    forall i : nat, (i < n)%nat ->
      exists y : F,
        trial c total (skip (i * draws_per_trial c) s)
          = Ok (y, skip (S i * draws_per_trial c) s) /\
        nth_error ys i = Some y.
Proof.
  induction n as [|n' IH]; intros yields s.
  - exists []. simpl. unfold ret. rewrite app_nil_r, skip_0.
    repeat split. intros i Hi. lia.
  - destruct (trial_ok s) as [k [_ Hk]].
    destruct (IH (yields ++ [yield_value c total k])
                 (skip (draws_per_trial c) s)) as [ys [Hys [Hlen Hnth]]].
    exists (yield_value c total k :: ys). split; [|split].
    + simpl trials. unfold bind. rewrite Hk, Hys, skip_skip.
      rewrite <- app_assoc. reflexivity.
    + simpl. now rewrite Hlen.
    + intros [|i] Hi.
      * exists (yield_value c total k). simpl Nat.mul.
        rewrite skip_0, Nat.add_0_r. split; [exact Hk | reflexivity].
      * destruct (Hnth i ltac:(lia)) as [y [Hy Hn]].
        exists y. rewrite !skip_skip in Hy. split; [exact Hy | exact Hn].
Qed.

End NonZeroTotal.

(** *** Runs whose total charge is zero *)

(** A trial fails in the division, after its draws. *)
Lemma trial_zero (c : params F) (total : F) (s : rng F) :
  is_zero total = true -> trial c total s = Raise ZeroDivisionError.
Proof.
  intros H. unfold trial, uniform, bind. rewrite random_step. unfold ret.
  destruct (count_fires_spec (Z.to_nat (num_policies c))
              (add (p_min c) (mul (sub (p_max c) (p_min c))
                                  (tape s (pos s)))) (skip 1 s))
    as [k [Hk _]].
  rewrite Hk. unfold yield_of_fires, truediv, bind. now rewrite H.
Qed.

Lemma trials_zero (c : params F) (total : F) (n : nat) (yields : list F)
      (s : rng F) :
  is_zero total = true ->
  trials c total (S n) yields s = Raise ZeroDivisionError.
Proof.
  intros H. simpl. unfold bind. now rewrite trial_zero.
Qed.

(** *** The three ways a run can end *)

(** Without trials the loop body never runs. *)
Lemma simulate_no_trials (c : params F) (s : rng F) :
  (simulations c <= 0)%Z -> simulate_yield_distribution c s = Ok ([], s).
Proof.
  intros H. unfold simulate_yield_distribution.
  replace (Z.to_nat (simulations c)) with 0%nat by lia. reflexivity.
Qed.

Lemma simulate_zero_total (c : params F) (s : rng F) :
  is_zero (total_premiums_of c) = true -> (1 <= simulations c)%Z ->
  simulate_yield_distribution c s = Raise ZeroDivisionError.
Proof.
  intros HT Hs. unfold simulate_yield_distribution.
  destruct (Z.to_nat (simulations c)) as [|n] eqn:E; [lia|].
  now apply trials_zero.
Qed.

(** Samples of a successful run are yields of event counts in range. *)
Lemma simulate_samples (c : params F) (s : rng F) (P : F -> Prop) :
  is_zero (total_premiums_of c) = false ->
  (forall k : Z, (0 <= k <= Z.of_nat (Z.to_nat (num_policies c)))%Z ->
                 P (yield_value c (total_premiums_of c) k)) ->
  exists (ys : list F) (s' : rng F),
    simulate_yield_distribution c s = Ok (ys, s') /\
    length ys = Z.to_nat (simulations c) /\ Forall P ys.
Proof.
  intros HT HP.
  destruct (trials_ok c _ HT (Z.to_nat (simulations c)) [] s)
    as [ys [Hys [Hlen Hnth]]].
  exists ys, (skip (Z.to_nat (simulations c) * draws_per_trial c) s).
  split; [exact Hys|]. split; [exact Hlen|].
  apply Forall_forall. intros x Hx.
  destruct (In_nth_error _ _ Hx) as [i Hi].
  assert (Hlt : (i < Z.to_nat (simulations c))%nat).
  { rewrite <- Hlen. apply nth_error_Some. congruence. }
  destruct (Hnth i Hlt) as [y [Hy Hn]].
  destruct (trial_ok c _ HT (skip (i * draws_per_trial c) s))
    as [k [Hk Ht]].
  assert (x = yield_value c (total_premiums_of c) k) by congruence.
  subst x. now apply HP.
Qed.

Lemma simulate_nonzero_total (c : params F) (s : rng F) :
  is_zero (total_premiums_of c) = false ->
  exists (ys : list F) (s' : rng F),
    simulate_yield_distribution c s = Ok (ys, s') /\
    length ys = Z.to_nat (simulations c).
Proof.
  intros HT.
  destruct (simulate_samples c s (fun _ => True) HT) as (ys & s' & H & L & _).
  - trivial.
  - now exists ys, s'.
Qed.

(** C3, amended: the simulator validates nothing and never raises
    [InvalidConfiguration], whatever the arithmetic of its floats.  With a
    trial count of 0 or less it returns the empty distribution; otherwise,
    whenever the total charge is not 0 (be the charge negative, the loss
    non-positive or the hazard bounds out of range or inverted) it returns
    a distribution of trial-count length. *)
Theorem simulate_never_invalid_configuration (c : params F) (s : rng F) :
  simulate_yield_distribution c s <> Raise InvalidConfiguration /\
  ((simulations c <= 0)%Z ->
     simulate_yield_distribution c s = Ok ([], s)) /\
  (is_zero (total_premiums_of c) = false ->
     exists (ys : list F) (s' : rng F),
       simulate_yield_distribution c s = Ok (ys, s') /\
       length ys = Z.to_nat (simulations c)).
Proof.
  split; [|split].
  - destruct (is_zero (total_premiums_of c)) eqn:HT.
    + destruct (Z_le_gt_dec (simulations c) 0) as [Hs|Hs].
      * rewrite simulate_no_trials by exact Hs. discriminate.
      * rewrite simulate_zero_total by (trivial; lia). discriminate.
    + destruct (simulate_nonzero_total c s HT) as (ys & s' & H & _).
      rewrite H. discriminate.
  - apply simulate_no_trials.
  - apply simulate_nonzero_total.
Qed.

(** *** Reproducibility *)

Lemma same_draws_skip (j k : nat) (s1 s2 : rng F) :
  same_draws (j + k) s1 s2 -> same_draws k (skip j s1) (skip j s2).
Proof.
  intros H i Hi. simpl. rewrite <- !Nat.add_assoc. apply H. lia.
Qed.

Lemma same_draws_le (j k : nat) (s1 s2 : rng F) :
  (j <= k)%nat -> same_draws k s1 s2 -> same_draws j s1 s2.
Proof.
  intros Hjk H i Hi. apply H. lia.
Qed.

Lemma same_draws_head (k : nat) (s1 s2 : rng F) :
  same_draws (S k) s1 s2 -> tape s1 (pos s1) = tape s2 (pos s2).
Proof.
  intros H. specialize (H 0%nat ltac:(lia)). now rewrite !Nat.add_0_r in H.
Qed.

Lemma count_fires_same (n : nat) (p : F) (s1 s2 : rng F) :
  same_draws n s1 s2 ->
  exists k : Z,
    count_fires n p s1 = Ok (k, skip n s1) /\
    count_fires n p s2 = Ok (k, skip n s2).
Proof.
  revert s1 s2. induction n as [|n IH]; intros s1 s2 H.
  - exists 0%Z. simpl. unfold ret. now rewrite !skip_0.
  - destruct (IH (skip 1 s1) (skip 1 s2)) as [k [H1 H2]].
    { apply (same_draws_skip 1 n). exact H. }
    exists ((if ltb (tape s1 (pos s1)) p then 1 else 0) + k)%Z.
    simpl count_fires. unfold bind. rewrite !random_step, H1, H2.
    unfold ret. rewrite !skip_skip.
    rewrite <- (same_draws_head n s1 s2 H). split; reflexivity.
Qed.

(** A trial reads the generator only through its next draws. *)
Lemma trial_same (c : params F) (total : F) (s1 s2 : rng F) :
  same_draws (draws_per_trial c) s1 s2 ->
  (exists y : F,
      trial c total s1 = Ok (y, skip (draws_per_trial c) s1) /\
      trial c total s2 = Ok (y, skip (draws_per_trial c) s2)) \/
  (exists e : exn,
      trial c total s1 = Raise e /\ trial c total s2 = Raise e).
Proof.
  intros H.
  destruct (is_zero total) eqn:HT.
  - right. exists ZeroDivisionError. now rewrite !trial_zero.
  - left. unfold draws_per_trial in *.
    pose proof (same_draws_head _ _ _ H) as Hu.
    destruct (count_fires_same (Z.to_nat (num_policies c))
                (add (p_min c) (mul (sub (p_max c) (p_min c))
                                    (tape s1 (pos s1))))
                (skip 1 s1) (skip 1 s2)) as [k [H1 H2]].
    { apply (same_draws_skip 1). exact H. }
    exists (yield_value c total k).
    unfold trial, uniform, bind. rewrite !random_step. unfold ret.
    rewrite <- Hu, H1, H2, !yield_of_fires_ok, !skip_skip by exact HT.
    split; reflexivity.
Qed.

Lemma trials_same (c : params F) (total : F) (n : nat) :
  forall (yields : list F) (s1 s2 : rng F),
    same_draws (n * draws_per_trial c) s1 s2 ->
    outcome (trials c total n yields s1) = outcome (trials c total n yields s2).
Proof.
  induction n as [|n IH]; intros yields s1 s2 H.
  - reflexivity.
  - simpl trials. unfold bind.
    destruct (trial_same c total s1 s2) as [[y [H1 H2]]|[e [H1 H2]]].
    + apply (same_draws_le _ _ _ _ (Nat.le_add_r _ _) H).
    + rewrite H1, H2. apply IH. apply same_draws_skip. exact H.
    + rewrite H1, H2. reflexivity.
Qed.

(** C9: the simulator is deterministic in its random source, whatever the
    arithmetic of its floats.  Two runs with the same configuration whose
    generators produce the same values for the draws of the run (as a
    generator seeded twice with one seed does) return the same
    distribution, sample for sample, or fail alike. *)
Theorem simulate_reproducible (c : params F) (s1 s2 : rng F) :
  same_draws (Z.to_nat (simulations c) * draws_per_trial c) s1 s2 ->
  outcome (simulate_yield_distribution c s1)
  = outcome (simulate_yield_distribution c s2).
Proof.
  intros H. unfold simulate_yield_distribution. now apply trials_same.
Qed.

End SimulatorFacts.

(** ** For exact arithmetic *)

Lemma is_zero_rational_false (x : Q) : ~ x == 0 -> is_zero x = false.
Proof.
  intros H. rational_arith. destruct (Qeq_bool x 0) eqn:E; [|reflexivity].
  apply Qeq_bool_eq in E. contradiction.
Qed.

Lemma is_zero_rational_true (x : Q) : x == 0 -> is_zero x = true.
Proof.
  intros H. rational_arith. now apply Qeq_eq_bool.
Qed.

Lemma valid_rng_skip (k : nat) (s : rng Q) :
  valid_rng s -> valid_rng (skip k s).
Proof.
  intros H i. apply (H i).
Qed.

(** No draw is below a hazard rate that is not positive. *)
Lemma count_fires_none (n : nat) (p : Q) (s : rng Q) :
  valid_rng s -> p <= 0 -> count_fires n p s = Ok (0%Z, skip n s).
Proof.
  intros Hs Hp. revert s Hs. induction n as [|n IH]; intros s Hs.
  - simpl. unfold ret. now rewrite skip_0.
  - simpl count_fires. unfold bind. rewrite random_step.
    rewrite (IH _ (valid_rng_skip 1 s Hs)). unfold ret.
    rewrite skip_skip. rational_arith.
    assert (E : Qltb (tape s (pos s)) p = false).
    { unfold Qltb. apply negb_false_iff, Qle_bool_iff.
      destruct (Hs (pos s)) as [H0 _]. lra. }
    rewrite E. reflexivity.
Qed.

(** Every draw is below a hazard rate of at least one. *)
Lemma count_fires_all (n : nat) (p : Q) (s : rng Q) :
  valid_rng s -> 1 <= p -> count_fires n p s = Ok (Z.of_nat n, skip n s).
Proof.
  intros Hs Hp. revert s Hs. induction n as [|n IH]; intros s Hs.
  - simpl. unfold ret. now rewrite skip_0.
  - simpl count_fires. unfold bind. rewrite random_step.
    rewrite (IH _ (valid_rng_skip 1 s Hs)). unfold ret.
    rewrite skip_skip. rational_arith.
    assert (E : Qltb (tape s (pos s)) p = true).
    { unfold Qltb. apply negb_true_iff.
      destruct (Qle_bool p (tape s (pos s))) eqn:Hb; [|reflexivity].
      apply Qle_bool_iff in Hb. destruct (Hs (pos s)) as [_ H1]. lra. }
    rewrite E. do 2 f_equal. lia.
Qed.

Lemma valid_total_positive (c : params Q) :
  valid_params c -> 0 < total_premiums_of c.
Proof.
  intros (Hn & _ & Ha & _). unfold total_premiums_of. rational_arith.
  apply Qmult_lt_0_compat; [|exact Ha].
  rewrite Zlt_Qlt in Hn. exact Hn.
Qed.

Lemma valid_total_nonzero (c : params Q) :
  valid_params c -> is_zero (total_premiums_of c) = false.
Proof.
  intros Hv. apply is_zero_rational_false.
  pose proof (valid_total_positive c Hv). lra.
Qed.

(** *** Bounds on one yield *)

Lemma yield_value_bounds (c : params Q) (k : Z) :
  valid_params c ->
  (0 <= k <= num_policies c)%Z ->
  lower_bound c <= yield_value c (total_premiums_of c) k /\
  yield_value c (total_premiums_of c) k <= 100.
Proof.
  intros Hv [Hk0 Hkn].
  pose proof (valid_total_positive c Hv) as HT.
  destruct Hv as (Hn & _ & Ha & Hc & _).
  unfold lower_bound, yield_value, total_premiums_of in *. rational_arith.
  rewrite Zle_Qle in Hk0, Hkn. rewrite Zlt_Qlt in Hn.
  change (inject_Z 0) with 0 in Hk0, Hn.
  set (N := inject_Z (num_policies c)) in *.
  set (K := inject_Z k) in *.
  set (a := annual_premium c) in *. set (cl := claim_amount c) in *.
  assert (Hkc : 0 <= K * cl) by (apply Qmult_le_0_compat; lra).
  assert (Hnk : 0 <= (N - K) * cl) by (apply Qmult_le_0_compat; lra).
  assert (E : (N * a - K * cl) / (N * a) == 1 - (K * cl) / (N * a)).
  { field. lra. }
  assert (G : cl / a == (N * cl) / (N * a)).
  { field. split; lra. }
  rewrite E, G.
  assert (L : (K * cl) / (N * a) <= (N * cl) / (N * a)).
  { apply Qle_shift_div_l; [exact HT|].
    setoid_replace (K * cl / (N * a) * (N * a)) with (K * cl)
      by (field; lra).
    lra. }
  assert (P : 0 <= (K * cl) / (N * a)).
  { apply Qle_shift_div_l; [exact HT|]. lra. }
  split; lra.
Qed.

(** *** The distribution returned by the simulator *)

(** C1: for every valid configuration the simulator returns a distribution
    whose length is the configured trial count, and whose [i]-th sample is
    the yield of the [i]-th trial, that is of the loop body run on the
    generator as the [i] preceding trials left it. *)
Theorem simulate_length_and_order (c : params Q) (s : rng Q) :
  valid_params c ->
  exists ys : list Q,
    simulate_yield_distribution c s
      = Ok (ys, skip (Z.to_nat (simulations c) * draws_per_trial c) s) /\
    Z.of_nat (length ys) = simulations c /\
    forall i : nat, (i < Z.to_nat (simulations c))%nat ->
      exists y : Q,
        trial c (total_premiums_of c) (skip (i * draws_per_trial c) s)
          = Ok (y, skip (S i * draws_per_trial c) s) /\
        nth_error ys i = Some y.
Proof.
  intros Hv.
  pose proof (valid_total_nonzero c Hv) as HT.
  destruct (trials_ok c _ HT (Z.to_nat (simulations c)) [] s)
    as [ys [Hys [Hlen Hnth]]].
  exists ys. split; [exact Hys|]. split; [|exact Hnth].
  destruct Hv as (_ & Hs & _). lia.
Qed.

Lemma simulate_length_and_order_witness :
  valid_params small_params /\
  exists ys : list Q,
    simulate_yield_distribution small_params cycle_rng
      = Ok (ys, skip (Z.to_nat (simulations small_params)
                      * draws_per_trial small_params) cycle_rng) /\
    Z.of_nat (length ys) = simulations small_params /\
    forall i : nat, (i < Z.to_nat (simulations small_params))%nat ->
      exists y : Q,
        trial small_params (total_premiums_of small_params)
              (skip (i * draws_per_trial small_params) cycle_rng)
          = Ok (y, skip (S i * draws_per_trial small_params) cycle_rng) /\
        nth_error ys i = Some y.
Proof.
  split; [solve_valid | apply simulate_length_and_order; solve_valid].
Defined.

(** A run of four trials over three policies: the hazard rates drawn are
    0, 4/5, 3/5 and 2/5 and the event counts 0, 3, 2 and 1. *)
Example simulate_small :
  outcome (simulate_yield_distribution small_params cycle_rng)
  = Ok [3000 * 100 # 3000; -147000 * 100 # 3000;
        -97000 * 100 # 3000; -47000 * 100 # 3000].
Proof. vm_compute. reflexivity. Qed.

(** *** No validation, one failure mode *)

(** C3, as the specification states it, fails: a configuration with trial
    count 0 is not valid, yet the simulator returns the empty distribution;
    one with a negative charge and inverted hazard bounds is not valid, yet
    the simulator returns a one-sample distribution. *)
Lemma invalid_configuration_not_raised :
  ~ valid_params no_trials /\
  simulate_yield_distribution no_trials cycle_rng = Ok ([], cycle_rng) /\
  ~ valid_params negative_charge /\
  outcome (simulate_yield_distribution negative_charge cycle_rng)
  = Ok [10200000 # 2000].
Proof.
  split; [|split; [|split]].
  - intros (_ & H & _). simpl in H. lia.
  - reflexivity.
  - intros (_ & _ & H & _). simpl in H. lra.
  - vm_compute. reflexivity.
Qed.

Lemma simulate_never_invalid_configuration_witness :
  simulate_yield_distribution negative_charge cycle_rng
    <> Raise InvalidConfiguration /\
  ((simulations negative_charge <= 0)%Z ->
     simulate_yield_distribution negative_charge cycle_rng
     = Ok ([], cycle_rng)) /\
  (is_zero (total_premiums_of negative_charge) = false ->
     exists (ys : list Q) (s' : rng Q),
       simulate_yield_distribution negative_charge cycle_rng = Ok (ys, s') /\
       length ys = Z.to_nat (simulations negative_charge)).
Proof.
  apply simulate_never_invalid_configuration.
Defined.

(** C10: the division of the loop body is unguarded.  With population size
    0 or charge 0 the total charge is 0 and, as soon as one trial runs, the
    simulator fails with [ZeroDivisionError]; with a total charge other
    than 0 it returns a distribution. *)
Theorem simulate_division_unguarded (c : params Q) (s : rng Q) :
  (num_policies c = 0%Z \/ annual_premium c == 0 ->
   (1 <= simulations c)%Z ->
   total_premiums_of c == 0 /\
   simulate_yield_distribution c s = Raise ZeroDivisionError) /\
  (~ total_premiums_of c == 0 ->
   exists (ys : list Q) (s' : rng Q),
     simulate_yield_distribution c s = Ok (ys, s')).
Proof.
  split.
  - intros H Hs.
    assert (HT : total_premiums_of c == 0).
    { unfold total_premiums_of. rational_arith. destruct H as [H|H].
      - rewrite H. change (inject_Z 0) with 0. ring.
      - rewrite H. ring. }
    split; [exact HT|].
    apply simulate_zero_total; [now apply is_zero_rational_true | exact Hs].
  - intros HT.
    destruct (simulate_nonzero_total c s (is_zero_rational_false _ HT))
      as (ys & s' & H & _).
    now exists ys, s'.
Qed.

Lemma simulate_division_unguarded_witness :
  (num_policies no_policies = 0%Z \/ annual_premium no_policies == 0) /\
  (1 <= simulations no_policies)%Z /\
  total_premiums_of no_policies == 0 /\
  simulate_yield_distribution no_policies cycle_rng
  = Raise ZeroDivisionError /\
  ~ total_premiums_of small_params == 0 /\
  exists (ys : list Q) (s' : rng Q),
    simulate_yield_distribution small_params cycle_rng = Ok (ys, s').
Proof.
  assert (H1 : num_policies no_policies = 0%Z
               \/ annual_premium no_policies == 0)
    by (left; reflexivity).
  assert (H2 : (1 <= simulations no_policies)%Z) by (simpl; lia).
  assert (H3 : ~ total_premiums_of small_params == 0)
    by (vm_compute; discriminate).
  split; [exact H1|]. split; [exact H2|].
  split; [|split; [|split]].
  - exact (proj1 (proj1 (simulate_division_unguarded no_policies cycle_rng)
                        H1 H2)).
  - exact (proj2 (proj1 (simulate_division_unguarded no_policies cycle_rng)
                        H1 H2)).
  - exact H3.
  - exact (proj2 (simulate_division_unguarded small_params cycle_rng) H3).
Defined.

Lemma simulate_reproducible_witness :
  same_draws (Z.to_nat (simulations small_params)
              * draws_per_trial small_params) cycle_rng cycle_rng_later /\
  outcome (simulate_yield_distribution small_params cycle_rng)
  = outcome (simulate_yield_distribution small_params cycle_rng_later).
Proof.
  assert (H : same_draws (Z.to_nat (simulations small_params)
                          * draws_per_trial small_params)
                         cycle_rng cycle_rng_later).
  { intros i Hi. simpl in Hi. simpl tape. simpl pos.
    do 16 (destruct i as [|i]; [reflexivity|]). lia. }
  split; [exact H | exact (simulate_reproducible _ _ _ H)].
Defined.

(** ** For rounded arithmetic *)

(** *** Powers of two *)

Lemma pow2_pos (e : Z) : 0 < 2 ^ e.
Proof. apply Qpower_0_lt. reflexivity. Qed.

Lemma pow2_plus (a b : Z) : 2 ^ (a + b) == 2 ^ a * 2 ^ b.
Proof. apply Qpower_plus. discriminate. Qed.

Lemma pow2_le (a b : Z) : (a <= b)%Z -> 2 ^ a <= 2 ^ b.
Proof. intros H. apply Qpower_le_compat_l; [exact H | discriminate]. Qed.

Lemma pow2_lt (a b : Z) : (a < b)%Z -> 2 ^ a < 2 ^ b.
Proof. intros H. apply Qpower_lt_compat_l; [exact H | reflexivity]. Qed.

Lemma pow2_lt_inv (a b : Z) : 2 ^ a < 2 ^ b -> (a < b)%Z.
Proof.
  intros H. apply (Qpower_lt_compat_l_inv 2); [exact H | reflexivity].
Qed.

Lemma pow2_inject (n : Z) : (0 <= n)%Z -> inject_Z (2 ^ n) == 2 ^ n.
Proof. intros H. apply (Zpower_Qpower 2 n H). Qed.

(** *** The binary exponent *)

Lemma log2_bounds (p : positive) :
  2 ^ Z.log2 (Z.pos p) <= inject_Z (Z.pos p) /\
  inject_Z (Z.pos p) < 2 ^ (Z.log2 (Z.pos p) + 1).
Proof.
  destruct (Z.log2_spec (Z.pos p) ltac:(lia)) as [H1 H2].
  pose proof (Z.log2_nonneg (Z.pos p)) as H0.
  split.
  - rewrite <- pow2_inject by exact H0. rewrite <- Zle_Qle. exact H1.
  - rewrite <- pow2_inject by lia. rewrite <- Zlt_Qlt.
    replace (Z.log2 (Z.pos p) + 1)%Z with (Z.succ (Z.log2 (Z.pos p))) by lia.
    exact H2.
Qed.

Lemma mag_spec (x : Q) : 0 < x -> 2 ^ mag x <= x /\ x < 2 ^ (mag x + 1).
Proof.
  intros Hx. destruct x as [n d].
  assert (Hn : (0 < n)%Z).
  { unfold Qlt in Hx. simpl in Hx. lia. }
  destruct n as [|p|p]; try lia. clear Hn.
  unfold mag. cbn [Qnum Qden].
  set (lp := Z.log2 (Z.pos p)). set (ld := Z.log2 (Z.pos d)).
  destruct (log2_bounds p) as [P1 P2]. destruct (log2_bounds d) as [D1 D2].
  fold lp in P1, P2. fold ld in D1, D2.
  assert (E : Z.pos p # d == inject_Z (Z.pos p) / inject_Z (Z.pos d))
    by apply Qmake_Qdiv.
  assert (Dpos : 0 < inject_Z (Z.pos d)) by reflexivity.
  assert (U : Z.pos p # d < 2 ^ (lp - ld + 1)).
  { rewrite E. apply Qlt_shift_div_r; [exact Dpos|].
    apply Qlt_le_trans with (2 ^ (lp + 1)); [exact P2|].
    replace (lp + 1)%Z with ((lp - ld + 1) + ld)%Z by lia.
    rewrite pow2_plus. apply Qmult_le_l; [apply pow2_pos | exact D1]. }
  assert (L : 2 ^ (lp - ld - 1) <= Z.pos p # d).
  { rewrite E. apply Qle_shift_div_l; [exact Dpos|].
    apply Qle_trans with (2 ^ lp); [|exact P1].
    replace lp with ((lp - ld - 1) + (ld + 1))%Z at 2 by lia.
    rewrite pow2_plus. apply Qmult_le_l; [apply pow2_pos|].
    apply Qlt_le_weak. exact D2. }
  destruct (Qle_bool (2 ^ (lp - ld)) (Z.pos p # d)) eqn:B.
  - apply Qle_bool_iff in B. split; [exact B | exact U].
  - split; [exact L|].
    replace (lp - ld - 1 + 1)%Z with (lp - ld)%Z by lia.
    apply Qnot_le_lt. intros C. apply Qle_bool_iff in C. congruence.
Qed.

Lemma mag_unique (x : Q) (e : Z) :
  2 ^ e <= x -> x < 2 ^ (e + 1) -> mag x = e.
Proof.
  intros H1 H2.
  assert (Hx : 0 < x) by (pose proof (pow2_pos e); lra).
  destruct (mag_spec x Hx) as [M1 M2].
  assert (A : (mag x < e + 1)%Z) by (apply pow2_lt_inv; lra).
  assert (B : (e < mag x + 1)%Z) by (apply pow2_lt_inv; lra).
  lia.
Qed.

Lemma mag_compat (x y : Q) : 0 < x -> x == y -> mag x = mag y.
Proof.
  intros Hx E. symmetry. destruct (mag_spec x Hx) as [M1 M2].
  apply mag_unique; rewrite <- E; assumption.
Qed.

Lemma mag_mono (x y : Q) : 0 < x -> x <= y -> (mag x <= mag y)%Z.
Proof.
  intros Hx Hxy.
  destruct (mag_spec x Hx) as [M1 _].
  destruct (mag_spec y ltac:(lra)) as [_ N2].
  assert (A : (mag x < mag y + 1)%Z) by (apply pow2_lt_inv; lra).
  lia.
Qed.

(** *** Rounding to the nearest integer *)

Lemma round_half_even_compat (x y : Q) :
  x == y -> round_half_even x = round_half_even y.
Proof.
  intros E. unfold round_half_even.
  rewrite (Qfloor_comp x y E).
  assert (C : Qcompare (x - inject_Z (Qfloor y)) (1 # 2)
              = Qcompare (y - inject_Z (Qfloor y)) (1 # 2)).
  { apply Qcompare_comp; [rewrite E|]; reflexivity. }
  rewrite C. reflexivity.
Qed.

Lemma round_half_even_Z (z : Z) : round_half_even (inject_Z z) = z.
Proof.
  unfold round_half_even. rewrite Qfloor_Z.
  assert (C : Qcompare (inject_Z z - inject_Z z) (1 # 2) = Lt).
  { apply (proj1 (Qlt_alt _ _)). generalize (inject_Z z). intros q. lra. }
  rewrite C. reflexivity.
Qed.

Lemma round_half_even_near (x : Q) :
  (Qfloor x <= round_half_even x <= Qfloor x + 1)%Z.
Proof.
  unfold round_half_even.
  destruct (Qcompare (x - inject_Z (Qfloor x)) (1 # 2));
    [destruct (Z.even (Qfloor x))| |]; lia.
Qed.

Lemma round_half_even_mono (x y : Q) :
  x <= y -> (round_half_even x <= round_half_even y)%Z.
Proof.
  intros H. pose proof (Qfloor_resp_le x y H) as F.
  pose proof (round_half_even_near x) as Nx.
  pose proof (round_half_even_near y) as Ny.
  destruct (Z.eq_dec (Qfloor x) (Qfloor y)) as [E|NE]; [|lia].
  unfold round_half_even in *. rewrite <- E in *.
  clear Nx Ny.
  destruct (Qcompare_spec (x - inject_Z (Qfloor x)) (1 # 2)) as [X|X|X];
    destruct (Qcompare_spec (y - inject_Z (Qfloor x)) (1 # 2)) as [Y|Y|Y];
    try (exfalso; lra); destruct (Z.even (Qfloor x)); lia.
Qed.

(** *** Rounding a positive rational to 53 bits *)

(** The mantissa before rounding lies between [2^52] and [2^53]. *)
Lemma scaled_bounds (x : Q) :
  0 < x ->
  2 ^ 52 <= x * 2 ^ (52 - mag x) /\ x * 2 ^ (52 - mag x) < 2 ^ 53.
Proof.
  intros Hx. destruct (mag_spec x Hx) as [M1 M2].
  pose proof (pow2_pos (52 - mag x)) as P.
  assert (E1 : 2 ^ 52 == 2 ^ mag x * 2 ^ (52 - mag x)).
  { rewrite <- pow2_plus.
    now replace (mag x + (52 - mag x))%Z with 52%Z by lia. }
  assert (E2 : 2 ^ 53 == 2 ^ (mag x + 1) * 2 ^ (52 - mag x)).
  { rewrite <- pow2_plus.
    now replace (mag x + 1 + (52 - mag x))%Z with 53%Z by lia. }
  split.
  - rewrite E1. apply Qmult_le_compat_r; lra.
  - rewrite E2. apply Qmult_lt_compat_r; lra.
Qed.

Lemma mantissa_bounds (x : Q) :
  0 < x ->
  (2 ^ 52 <= round_half_even (x * 2 ^ (52 - mag x)) <= 2 ^ 53)%Z.
Proof.
  intros Hx. destruct (scaled_bounds x Hx) as [S1 S2].
  split.
  - rewrite <- (round_half_even_Z (2 ^ 52)).
    apply round_half_even_mono. rewrite pow2_inject by lia. exact S1.
  - rewrite <- (round_half_even_Z (2 ^ 53)).
    apply round_half_even_mono. rewrite pow2_inject by lia. lra.
Qed.

(** Rounding stays within the binade of its argument. *)
Lemma round53_pos_bounds (x : Q) :
  0 < x ->
  2 ^ mag x <= round53_pos x /\ round53_pos x <= 2 ^ (mag x + 1).
Proof.
  intros Hx. destruct (mantissa_bounds x Hx) as [B1 B2].
  unfold round53_pos. cbv zeta.
  set (m := round_half_even (x * 2 ^ (52 - mag x))) in *.
  pose proof (pow2_pos (mag x - 52)) as P.
  rewrite Zle_Qle, pow2_inject in B1, B2 by lia.
  assert (E1 : 2 ^ mag x == 2 ^ 52 * 2 ^ (mag x - 52)).
  { rewrite <- pow2_plus.
    now replace (52 + (mag x - 52))%Z with (mag x) by lia. }
  assert (E2 : 2 ^ (mag x + 1) == 2 ^ 53 * 2 ^ (mag x - 52)).
  { rewrite <- pow2_plus.
    now replace (53 + (mag x - 52))%Z with (mag x + 1)%Z by lia. }
  split.
  - rewrite E1. apply Qmult_le_compat_r; lra.
  - rewrite E2. apply Qmult_le_compat_r; lra.
Qed.

Lemma round53_pos_positive (x : Q) : 0 < x -> 0 < round53_pos x.
Proof.
  intros Hx. destruct (round53_pos_bounds x Hx) as [B _].
  pose proof (pow2_pos (mag x)). lra.
Qed.

Lemma round53_pos_compat (x y : Q) :
  0 < x -> x == y -> round53_pos x == round53_pos y.
Proof.
  intros Hx E. unfold round53_pos. cbv zeta.
  rewrite <- (mag_compat x y Hx E).
  rewrite (round_half_even_compat (x * 2 ^ (52 - mag x))
             (y * 2 ^ (52 - mag x)))
    by (apply Qmult_comp; [exact E | reflexivity]).
  reflexivity.
Qed.

Lemma round53_pos_mono (x y : Q) :
  0 < x -> x <= y -> round53_pos x <= round53_pos y.
Proof.
  intros Hx Hxy.
  assert (Hy : 0 < y) by lra.
  pose proof (mag_mono x y Hx Hxy) as M.
  destruct (Z.eq_dec (mag x) (mag y)) as [E|NE].
  - unfold round53_pos. cbv zeta. rewrite <- E.
    apply Qmult_le_compat_r; [|apply Qlt_le_weak, pow2_pos].
    rewrite <- Zle_Qle. apply round_half_even_mono.
    apply Qmult_le_compat_r; [exact Hxy | apply Qlt_le_weak, pow2_pos].
  - destruct (round53_pos_bounds x Hx) as [_ Bx].
    destruct (round53_pos_bounds y Hy) as [By _].
    assert (P : 2 ^ (mag x + 1) <= 2 ^ mag y) by (apply pow2_le; lia).
    lra.
Qed.

(** A positive rational whose mantissa of 53 bits is a whole number is left
    as it is. *)
Lemma round53_pos_fixed (x : Q) (m : Z) :
  0 < x -> x * 2 ^ (52 - mag x) == inject_Z m -> round53_pos x == x.
Proof.
  intros Hx E. unfold round53_pos. cbv zeta.
  rewrite (round_half_even_compat _ _ E), round_half_even_Z, <- E.
  rewrite <- Qmult_assoc, <- pow2_plus.
  replace (52 - mag x + (mag x - 52))%Z with 0%Z by lia.
  change (2 ^ 0) with 1. ring.
Qed.

Lemma round53_pos_idem (x : Q) :
  0 < x -> round53_pos (round53_pos x) == round53_pos x.
Proof.
  intros Hx.
  pose proof (round53_pos_positive x Hx) as Hv.
  destruct (mantissa_bounds x Hx) as [B1 B2].
  destruct (round53_pos_bounds x Hx) as [V1 V2].
  set (m := round_half_even (x * 2 ^ (52 - mag x))) in *.
  assert (V : round53_pos x == inject_Z m * 2 ^ (mag x - 52)) by reflexivity.
  destruct (Z.eq_dec m (2 ^ 53)) as [E|NE].
  - assert (W : round53_pos x == 2 ^ (mag x + 1)).
    { rewrite V, E, pow2_inject by lia. rewrite <- pow2_plus.
      now replace (53 + (mag x - 52))%Z with (mag x + 1)%Z by lia. }
    assert (M : mag (round53_pos x) = (mag x + 1)%Z).
    { apply mag_unique; rewrite W; [lra|]. apply pow2_lt. lia. }
    apply (round53_pos_fixed _ (2 ^ 52) Hv).
    rewrite M, W, <- pow2_plus, pow2_inject by lia.
    now replace (mag x + 1 + (52 - (mag x + 1)))%Z with 52%Z by lia.
  - assert (M : mag (round53_pos x) = mag x).
    { apply mag_unique; [exact V1|].
      rewrite V.
      assert (L : inject_Z m < 2 ^ 53).
      { rewrite <- pow2_inject by lia. rewrite <- Zlt_Qlt. lia. }
      assert (E2 : 2 ^ (mag x + 1) == 2 ^ 53 * 2 ^ (mag x - 52)).
      { rewrite <- pow2_plus.
        now replace (53 + (mag x - 52))%Z with (mag x + 1)%Z by lia. }
      rewrite E2. apply Qmult_lt_compat_r; [apply pow2_pos | exact L]. }
    apply (round53_pos_fixed _ m Hv).
    rewrite M, V, <- Qmult_assoc, <- pow2_plus.
    replace (mag x - 52 + (52 - mag x))%Z with 0%Z by lia.
    change (2 ^ 0) with 1. ring.
Qed.

Lemma round53_pos_Z (z : Z) :
  (0 < z <= 2 ^ 53)%Z -> round53_pos (inject_Z z) == inject_Z z.
Proof.
  intros [H0 H1].
  assert (Hx : 0 < inject_Z z).
  { change 0 with (inject_Z 0). rewrite <- Zlt_Qlt. exact H0. }
  destruct (Z.eq_dec z (2 ^ 53)) as [E|NE].
  - subst z. vm_compute. reflexivity.
  - assert (L : (Z.log2 z < 53)%Z) by (apply Z.log2_lt_pow2; lia).
    pose proof (Z.log2_nonneg z) as L0.
    destruct (Z.log2_spec z H0) as [S1 S2].
    assert (M : mag (inject_Z z) = Z.log2 z).
    { apply mag_unique.
      - rewrite <- pow2_inject by lia. rewrite <- Zle_Qle. exact S1.
      - rewrite <- pow2_inject by lia. rewrite <- Zlt_Qlt.
        replace (Z.log2 z + 1)%Z with (Z.succ (Z.log2 z)) by lia. exact S2. }
    apply (round53_pos_fixed _ (z * 2 ^ (52 - Z.log2 z)) Hx).
    rewrite M, inject_Z_mult, pow2_inject by lia. reflexivity.
Qed.

(** *** Rounding to 53 bits is a rounding *)

Lemma round53_of_positive (x : Q) : 0 < x -> round53 x = round53_pos x.
Proof.
  intros H. destruct x as [[|p|p] d]; try reflexivity;
    unfold Qlt in H; simpl in H; lia.
Qed.

Lemma round53_of_negative (x : Q) :
  x < 0 -> round53 x = - round53_pos (- x).
Proof.
  intros H. destruct x as [[|p|p] d]; try reflexivity;
    unfold Qlt in H; simpl in H; lia.
Qed.

Lemma round53_of_zero (x : Q) : x == 0 -> round53 x = 0.
Proof.
  intros H. destruct x as [[|p|p] d]; try reflexivity;
    unfold Qeq in H; simpl in H; lia.
Qed.

Lemma Q_sign_cases (x : Q) : x < 0 \/ x == 0 \/ 0 < x.
Proof.
  destruct (Qlt_le_dec x 0) as [H|H]; [now left|].
  destruct (Qlt_le_dec 0 x) as [G|G]; [now right; right|].
  right; left. lra.
Qed.

Lemma round53_sign (x : Q) :
  (x < 0 -> round53 x < 0) /\ (x == 0 -> round53 x == 0) /\
  (0 < x -> 0 < round53 x).
Proof.
  repeat split; intros H.
  - rewrite (round53_of_negative x H).
    pose proof (round53_pos_positive (- x) ltac:(lra)). lra.
  - now rewrite (round53_of_zero x H).
  - rewrite (round53_of_positive x H). now apply round53_pos_positive.
Qed.

Lemma round53_compat (x y : Q) : x == y -> round53 x == round53 y.
Proof.
  intros E. destruct (Q_sign_cases x) as [H|[H|H]].
  - rewrite (round53_of_negative x H), (round53_of_negative y) by lra.
    rewrite (round53_pos_compat (- x) (- y));
      [reflexivity | lra | now rewrite E].
  - rewrite (round53_of_zero x H), (round53_of_zero y) by lra. reflexivity.
  - rewrite (round53_of_positive x H), (round53_of_positive y) by lra.
    now apply round53_pos_compat.
Qed.

Lemma round53_mono (x y : Q) : x <= y -> round53 x <= round53 y.
Proof.
  intros L.
  destruct (round53_sign x) as (Xn & Xz & Xp).
  destruct (round53_sign y) as (Yn & Yz & Yp).
  destruct (Q_sign_cases x) as [H|[H|H]];
    destruct (Q_sign_cases y) as [G|[G|G]];
    try (exfalso; lra);
    try (specialize (Xn H)); try (specialize (Xz H)); try (specialize (Xp H));
    try (specialize (Yn G)); try (specialize (Yz G)); try (specialize (Yp G));
    try lra.
  - rewrite (round53_of_negative x H), (round53_of_negative y G).
    pose proof (round53_pos_mono (- y) (- x) ltac:(lra) ltac:(lra)). lra.
  - rewrite (round53_of_positive x H), (round53_of_positive y G).
    now apply round53_pos_mono.
Qed.

Lemma round53_idem (x : Q) : round53 (round53 x) == round53 x.
Proof.
  destruct (round53_sign x) as (Xn & Xz & Xp).
  destruct (Q_sign_cases x) as [H|[H|H]].
  - specialize (Xn H). rewrite (round53_of_negative _ Xn).
    rewrite (round53_of_negative x H) at 2.
    rewrite (round53_pos_compat (- round53 x) (round53_pos (- x))).
    + now rewrite round53_pos_idem by lra.
    + lra.
    + rewrite (round53_of_negative x H). ring.
  - rewrite (round53_of_zero x H). reflexivity.
  - specialize (Xp H). rewrite (round53_of_positive _ Xp).
    rewrite (round53_of_positive x H). now apply round53_pos_idem.
Qed.

Lemma round53_Z (z : Z) :
  (Z.abs z <= 2 ^ 53)%Z -> round53 (inject_Z z) == inject_Z z.
Proof.
  intros H. destruct (Z.lt_trichotomy z 0) as [N|[E|P]].
  - assert (Hx : inject_Z z < 0).
    { change 0 with (inject_Z 0). rewrite <- Zlt_Qlt. exact N. }
    rewrite (round53_of_negative _ Hx).
    rewrite (round53_pos_compat (- inject_Z z) (inject_Z (- z)));
      [| lra | now rewrite inject_Z_opp].
    rewrite round53_pos_Z by lia. rewrite inject_Z_opp. ring.
  - subst z. reflexivity.
  - assert (Hx : 0 < inject_Z z).
    { change 0 with (inject_Z 0). rewrite <- Zlt_Qlt. exact P. }
    rewrite (round53_of_positive _ Hx). apply round53_pos_Z. lia.
Qed.

(** Rounding to 53 bits, ties to even, is a rounding. *)
Lemma round53_rounding : rounding round53.
Proof.
  constructor.
  - exact round53_compat.
  - exact round53_mono.
  - exact round53_idem.
  - exact round53_Z.
Qed.

(** So is leaving every rational as it is, and the arithmetic rounded in
    this way is the exact one. *)
Lemma identity_rounding : rounding (fun x : Q => x).
Proof.
  constructor; intros; try assumption; reflexivity.
Qed.

Lemma rounded_identity : rounded (fun x : Q => x) = rational.
Proof. reflexivity. Qed.

(** *** The error of rounding to 53 bits *)

Lemma round_half_even_error (x : Q) :
  - (1 # 2) <= inject_Z (round_half_even x) - x /\
  inject_Z (round_half_even x) - x <= 1 # 2.
Proof.
  pose proof (Qfloor_le x) as F1. pose proof (Qlt_floor x) as F2.
  rewrite inject_Z_plus in F2. change (inject_Z 1) with 1 in F2.
  unfold round_half_even.
  destruct (Qcompare_spec (x - inject_Z (Qfloor x)) (1 # 2)) as [E|L|G].
  - destruct (Z.even (Qfloor x));
      [|rewrite inject_Z_plus; change (inject_Z 1) with 1]; split; lra.
  - split; lra.
  - rewrite inject_Z_plus. change (inject_Z 1) with 1. split; lra.
Qed.

Lemma round53_pos_error (x : Q) :
  0 < x ->
  - (unit_roundoff * x) <= round53_pos x - x /\
  round53_pos x - x <= unit_roundoff * x.
Proof.
  intros Hx. destruct (mag_spec x Hx) as [M1 _].
  unfold round53_pos. cbv zeta.
  set (e := mag x) in *.
  set (sc := x * 2 ^ (52 - e)).
  destruct (round_half_even_error sc) as [R1 R2].
  set (m := inject_Z (round_half_even sc)) in *.
  pose proof (pow2_pos (e - 52)) as Pu.
  assert (X : x == sc * 2 ^ (e - 52)).
  { unfold sc. rewrite <- Qmult_assoc, <- pow2_plus.
    replace (52 - e + (e - 52))%Z with 0%Z by lia.
    change (2 ^ 0) with 1. ring. }
  assert (H : (1 # 2) * 2 ^ (e - 52) <= unit_roundoff * x).
  { assert (E : (1 # 2) * 2 ^ (e - 52) == unit_roundoff * 2 ^ e).
    { replace e with ((e - 52) + 52)%Z at 2 by lia. rewrite pow2_plus.
      assert (C : 2 ^ 52 == 4503599627370496) by reflexivity.
      rewrite C. unfold unit_roundoff. field. }
    rewrite E. apply Qmult_le_l; [reflexivity | exact M1]. }
  assert (D : m * 2 ^ (e - 52) - x == (m - sc) * 2 ^ (e - 52)).
  { rewrite X at 1. ring. }
  rewrite D.
  assert (U1 : (m - sc) * 2 ^ (e - 52) <= (1 # 2) * 2 ^ (e - 52)).
  { apply Qmult_le_compat_r; lra. }
  assert (U2 : - (1 # 2) * 2 ^ (e - 52) <= (m - sc) * 2 ^ (e - 52)).
  { apply Qmult_le_compat_r; lra. }
  split; lra.
Qed.

Lemma round53_accurate : accurate round53.
Proof.
  intros x. apply Qabs_Qle_condition.
  destruct (Q_sign_cases x) as [H|[H|H]].
  - rewrite (round53_of_negative x H), (Qabs_neg x) by lra.
    destruct (round53_pos_error (- x) ltac:(lra)) as [E1 E2]. split; lra.
  - rewrite (round53_of_zero x H), (Qabs_pos x) by lra.
    unfold unit_roundoff. split; lra.
  - rewrite (round53_of_positive x H), (Qabs_pos x) by lra.
    destruct (round53_pos_error x H) as [E1 E2]. split; lra.
Qed.

Lemma identity_accurate : accurate (fun x : Q => x).
Proof.
  intros x. setoid_replace (x - x) with 0 by ring.
  apply Qmult_le_0_compat; [discriminate | apply Qabs_nonneg].
Qed.

(** *** One yield, with every operation rounded *)

Section RoundedYield.

Variable rnd : Q -> Q.
Hypothesis rnd_rounding : rounding rnd.

Lemma rnd_le_compat (x y : Q) : x <= y -> rnd x <= rnd y.
Proof. apply (rnd_mono rnd rnd_rounding). Qed.

Lemma rnd_0 : rnd 0 == 0.
Proof. apply (rnd_int rnd rnd_rounding 0). discriminate. Qed.

Lemma rnd_1 : rnd 1 == 1.
Proof. apply (rnd_int rnd rnd_rounding 1). discriminate. Qed.

Lemma rnd_100 : rnd 100 == 100.
Proof. apply (rnd_int rnd rnd_rounding 100). discriminate. Qed.

Lemma rnd_nonneg (x : Q) : 0 <= x -> 0 <= rnd x.
Proof. intros H. rewrite <- rnd_0. now apply rnd_le_compat. Qed.

Lemma rnd_le (x y : Q) : x <= y -> representable rnd y -> rnd x <= y.
Proof.
  intros H R. unfold representable in R. rewrite <- R.
  now apply rnd_le_compat.
Qed.

Lemma rnd_ge (x y : Q) : x <= y -> representable rnd x -> x <= rnd y.
Proof.
  intros H R. unfold representable in R. rewrite <- R.
  now apply rnd_le_compat.
Qed.

Lemma rnd_eq (x y : Q) : x == y -> representable rnd y -> rnd x == y.
Proof.
  intros E R. unfold representable in R. rewrite <- R.
  now apply (rnd_compat rnd rnd_rounding).
Qed.

Lemma rounded_yield (c : params Q) (T : Q) (k : Z) :
  yield_value (num := rounded rnd) c T k
  == rnd (rnd (rnd (T - rnd (rnd (inject_Z k) * claim_amount c)) / T)
          * 100).
Proof.
  unfold yield_value. cbn [of_int sub mul div rounded].
  apply (rnd_compat rnd rnd_rounding). now rewrite rnd_100.
Qed.

Lemma rounded_total (c : params Q) :
  total_premiums_of (num := rounded rnd) c
  = rnd (rnd (inject_Z (num_policies c)) * annual_premium c).
Proof. reflexivity. Qed.

Section PositiveTotal.

Variable c : params Q.
Variable T : Q.
Hypothesis T_pos : 0 < T.
Hypothesis T_repr : representable rnd T.
Hypothesis claim_nonneg : 0 <= claim_amount c.

(** No event count gives a yield above 100. *)
Lemma rounded_yield_le_100 (k : Z) :
  (0 <= k)%Z -> yield_value (num := rounded rnd) c T k <= 100.
Proof.
  intros Hk. rewrite rounded_yield.
  assert (K : 0 <= rnd (inject_Z k)).
  { apply rnd_nonneg. change 0 with (inject_Z 0). now rewrite <- Zle_Qle. }
  assert (P : 0 <= rnd (rnd (inject_Z k) * claim_amount c)).
  { apply rnd_nonneg. now apply Qmult_le_0_compat. }
  assert (N : rnd (T - rnd (rnd (inject_Z k) * claim_amount c)) <= T).
  { apply rnd_le; [lra | exact T_repr]. }
  assert (D : rnd (rnd (T - rnd (rnd (inject_Z k) * claim_amount c)) / T)
              <= 1).
  { apply rnd_le; [|exact rnd_1].
    apply Qle_shift_div_r; [exact T_pos | lra]. }
  apply rnd_le; [lra | exact rnd_100].
Qed.

(** More events never give a higher yield: every operation of the loop
    body keeps or reverses the order, and so does its rounding. *)
Lemma rounded_yield_antitone (k k' : Z) :
  (k <= k')%Z ->
  yield_value (num := rounded rnd) c T k'
  <= yield_value (num := rounded rnd) c T k.
Proof.
  intros Hk. rewrite !rounded_yield.
  apply rnd_le_compat. apply Qmult_le_compat_r; [|lra].
  apply rnd_le_compat. apply Qmult_le_compat_r;
    [|apply Qlt_le_weak, Qinv_lt_0_compat, T_pos].
  apply rnd_le_compat. apply Qplus_le_r. apply Qopp_le_compat.
  apply rnd_le_compat. apply Qmult_le_compat_r; [|exact claim_nonneg].
  apply rnd_le_compat. now rewrite <- Zle_Qle.
Qed.

(** Without events the yield is 100, and no rounding occurs. *)
Lemma rounded_yield_no_event :
  yield_value (num := rounded rnd) c T 0 == 100.
Proof.
  rewrite rounded_yield. change (inject_Z 0) with 0.
  assert (P : rnd (rnd 0 * claim_amount c) == 0).
  { apply rnd_eq; [rewrite rnd_0; ring | exact rnd_0]. }
  assert (N : rnd (T - rnd (rnd 0 * claim_amount c)) == T).
  { apply rnd_eq; [rewrite P; ring | exact T_repr]. }
  assert (D : rnd (rnd (T - rnd (rnd 0 * claim_amount c)) / T) == 1).
  { apply rnd_eq; [rewrite N; field; lra | exact rnd_1]. }
  apply rnd_eq; [rewrite D; ring | exact rnd_100].
Qed.

End PositiveTotal.

(** The total charge of a valid configuration is a float, at least the
    charge of one policy. *)
Lemma rounded_total_bounds (c : params Q) :
  valid_params c -> representable rnd (annual_premium c) ->
  annual_premium c <= total_premiums_of (num := rounded rnd) c /\
  representable rnd (total_premiums_of (num := rounded rnd) c).
Proof.
  intros (Hn & _ & Ha & _) Ra. rewrite rounded_total. split.
  - apply rnd_ge; [|exact Ra].
    assert (N : 1 <= rnd (inject_Z (num_policies c))).
    { apply rnd_ge; [|exact rnd_1]. change 1 with (inject_Z 1).
      rewrite <- Zle_Qle. lia. }
    setoid_replace (annual_premium c) with (1 * annual_premium c) at 1
      by ring.
    apply Qmult_le_compat_r; lra.
  - unfold representable. apply rnd_idem. exact rnd_rounding.
Qed.

Lemma rounded_total_nonzero (c : params Q) :
  valid_params c -> representable rnd (annual_premium c) ->
  is_zero (Number := rounded rnd) (total_premiums_of (num := rounded rnd) c)
  = false.
Proof.
  intros Hv Ra. destruct (rounded_total_bounds c Hv Ra) as [B _].
  destruct Hv as (_ & _ & Ha & _).
  refine (is_zero_rational_false _ _). lra.
Qed.

(** A run on a valid configuration returns one sample per trial, each
    between the yield of a year in which every policy has an event and
    100. *)
Lemma rounded_run (c : params Q) (s : rng Q) :
  valid_params c -> representable rnd (annual_premium c) ->
  exists (ys : list Q) (s' : rng Q),
    simulate_yield_distribution (num := rounded rnd) c s = Ok (ys, s') /\
    length ys = Z.to_nat (simulations c) /\
    Forall (fun y => worst_yield rnd c <= y /\ y <= 100) ys.
Proof.
  intros Hv Ra.
  destruct (rounded_total_bounds c Hv Ra) as [B R].
  pose proof (rounded_total_nonzero c Hv Ra) as HT.
  destruct Hv as (Hn & _ & Ha & Hc & _).
  apply (simulate_samples (num := rounded rnd) c s
           (fun y => worst_yield rnd c <= y /\ y <= 100) HT).
  intros k Hk. split.
  - apply rounded_yield_antitone; [lra | lra | lia].
  - apply rounded_yield_le_100; [lra | exact R | lra | lia].
Qed.

(** *** How far rounding moves the worst yield *)

Section Accuracy.

Hypothesis rnd_accurate : accurate rnd.

(** A rounded value is near the exact one. *)
Lemma rnd_near (x X : Q) :
  - X <= x -> x <= X ->
  x - unit_roundoff * X <= rnd x /\ rnd x <= x + unit_roundoff * X.
Proof.
  intros H1 H2. pose proof (rnd_accurate x) as A.
  apply Qabs_Qle_condition in A.
  assert (B : Qabs x <= X) by (apply Qabs_Qle_condition; split; lra).
  assert (C : unit_roundoff * Qabs x <= unit_roundoff * X).
  { apply Qmult_le_l; [reflexivity | exact B]. }
  split; lra.
Qed.

Lemma product_within (x y X Y : Q) :
  - X <= x -> x <= X -> - Y <= y -> y <= Y ->
  - (X * Y) <= x * y /\ x * y <= X * Y.
Proof.
  intros H1 H2 H3 H4. apply Qabs_Qle_condition. rewrite Qabs_Qmult.
  apply Qmult_le_compat_nonneg; (split; [apply Qabs_nonneg|]);
    apply Qabs_Qle_condition; split; lra.
Qed.

(** The worst yield is below the bound of the specification by the
    tolerance at most: the five roundings of the loop body, two of them
    amplified by the ratio of loss to charge. *)
Lemma worst_yield_accuracy (c : params Q) :
  valid_params c -> lower_bound c - tolerance c <= worst_yield rnd c.
Proof.
  intros (Hn & _ & Ha & Hc & _).
  unfold worst_yield. rewrite rounded_yield, rounded_total.
  unfold lower_bound, tolerance. rational_arith.
  set (a := annual_premium c) in *. set (cl := claim_amount c) in *.
  set (N := rnd (inject_Z (num_policies c))).
  assert (HN : 1 <= N).
  { apply rnd_ge; [|exact rnd_1].
    change 1 with (inject_Z 1). rewrite <- Zle_Qle. lia. }
  set (A := N * a). set (B := N * cl).
  assert (HA : 0 < A) by (apply Qmult_lt_0_compat; lra).
  assert (HB : 0 < B) by (apply Qmult_lt_0_compat; lra).
  (* the total charge and the total loss *)
  destruct (rnd_near A A) as [T1 T2]; [lra | lra|].
  destruct (rnd_near B B) as [P1 P2]; [lra | lra|].
  set (T := rnd A) in *. set (P := rnd B) in *.
  (* the net profit *)
  destruct (rnd_near (T - P) ((A + B) * (1 + unit_roundoff))) as [D1 D2];
    [unfold unit_roundoff in *; lra | unfold unit_roundoff in *; lra|].
  set (D := rnd (T - P)) in *.
  (* the exact quotient and its scale *)
  set (v := 1 - cl / a). set (sg := 1 + cl / a).
  assert (Hsg : 1 <= sg).
  { unfold sg. assert (0 <= cl / a) by (apply Qle_shift_div_l; lra). lra. }
  assert (Ev : v * A == A - B) by (unfold v, A, B; field; lra).
  assert (Es : sg * A == A + B) by (unfold sg, A, B; field; lra).
  assert (Hv : - sg <= v /\ v <= sg).
  { unfold v, sg. assert (0 <= cl / a) by (apply Qle_shift_div_l; lra).
    split; lra. }
  setoid_replace (100 - cl / a * 100) with (100 * v) by (unfold v; ring).
  clearbody v sg.
  assert (HT : 0 < T) by (unfold unit_roundoff in *; lra).
  (* the quotient *)
  destruct (product_within v (T - A) sg (unit_roundoff * A))
    as [V1 V2]; [lra | lra | lra | lra|].
  assert (EsT : sg * T == (A + B) + sg * (T - A)) by (rewrite <- Es; ring).
  destruct (product_within sg (T - A) sg (unit_roundoff * A))
    as [S1 S2]; [lra | lra | lra | lra|].
  assert (Es2 : sg * (unit_roundoff * A) == unit_roundoff * (A + B))
    by (rewrite <- Es; ring).
  assert (EvT : (D / T - v) * T == D - (A - B) - v * (T - A)).
  { rewrite <- Ev. field. lra. }
  assert (W : - (4 * unit_roundoff * sg) <= D / T - v /\
              D / T - v <= 4 * unit_roundoff * sg).
  { split.
    - apply (Qmult_le_r _ _ T HT). rewrite EvT.
      setoid_replace (- (4 * unit_roundoff * sg) * T)
        with (- (4 * unit_roundoff) * (sg * T)) by ring.
      unfold unit_roundoff in *. lra.
    - apply (Qmult_le_r _ _ T HT). rewrite EvT.
      setoid_replace (4 * unit_roundoff * sg * T)
        with (4 * unit_roundoff * (sg * T)) by ring.
      unfold unit_roundoff in *. lra. }
  destruct W as [W1 W2].
  destruct (rnd_near (D / T) (sg * (1 + 4 * unit_roundoff))) as [U1 U2];
    [unfold unit_roundoff in *; lra | unfold unit_roundoff in *; lra|].
  set (U := rnd (D / T)) in *.
  (* the percentage *)
  destruct (rnd_near (U * 100) (100 * sg * (1 + 6 * unit_roundoff)))
    as [Y1 Y2];
    [unfold unit_roundoff in *; lra | unfold unit_roundoff in *; lra|].
  unfold unit_roundoff in *. lra.
Qed.

End Accuracy.

End RoundedYield.

(** *** Bounds on the samples *)

(** C2, amended: every sample of a run on a valid configuration lies
    between the yield the loop body computes when every policy has an
    event, [worst_yield], and 100, the yield it computes when no policy
    has one.  This holds whatever rounding follows the operations, so for
    the doubles of the program as well as for exact arithmetic, under the
    one condition that the charge is itself a float.  In exact arithmetic
    the lower end is [100 - loss / charge * 100], the bound of the
    specification; with rounding it is the rounded evaluation of
    [(total - population * loss) / total * 100], which can lie below that
    bound, but by no more than [tolerance] when the relative error of the
    rounding is at most [2^-53]: then every sample lies between
    [100 - loss / charge * 100 - 2^-43 * (1 + loss / charge)] and 100. *)
Theorem yield_within_bounds (rnd : Q -> Q) (c : params Q) (s : rng Q) :
  rounding rnd -> valid_params c ->
  representable rnd (annual_premium c) ->
  (exists (ys : list Q) (s' : rng Q),
      simulate_yield_distribution (num := rounded rnd) c s = Ok (ys, s') /\
      Forall (fun y => worst_yield rnd c <= y /\ y <= 100) ys /\
      (accurate rnd ->
       Forall (fun y => lower_bound c - tolerance c <= y /\ y <= 100) ys)) /\
  (exists v : Q,
      yield_of_fires (num := rounded rnd) c
                     (total_premiums_of (num := rounded rnd) c)
                     (num_policies c) s = Ok (v, s) /\
      v = worst_yield rnd c) /\
  (exists v : Q,
      yield_of_fires (num := rounded rnd) c
                     (total_premiums_of (num := rounded rnd) c) 0 s
      = Ok (v, s) /\
      v == 100) /\
  yield_value (num := rational) c (total_premiums_of c) (num_policies c)
  == lower_bound c /\
  (accurate rnd -> lower_bound c - tolerance c <= worst_yield rnd c).
Proof.
  intros Hr Hv Ra.
  destruct (rounded_total_bounds rnd Hr c Hv Ra) as [B R].
  pose proof (rounded_total_nonzero rnd Hr c Hv Ra) as HT.
  split; [|split; [|split; [|split]]].
  - destruct (rounded_run rnd Hr c s Hv Ra) as (ys & s' & Hys & _ & Hall).
    exists ys, s'. split; [exact Hys|]. split; [exact Hall|].
    intros Hacc. pose proof (worst_yield_accuracy rnd Hr Hacc c Hv) as Hw.
    apply (Forall_impl _ (P := fun y => worst_yield rnd c <= y /\ y <= 100));
      [|exact Hall].
    intros y [Y1 Y2]. split; lra.
  - exists (worst_yield rnd c). split; [|reflexivity].
    now apply (yield_of_fires_ok (num := rounded rnd)).
  - eexists. split; [now apply (yield_of_fires_ok (num := rounded rnd))|].
    destruct Hv as (_ & _ & Ha & Hc & _).
    apply rounded_yield_no_event; [exact Hr | lra | exact R].
  - destruct Hv as (Hn & _ & Ha & _).
    rewrite Zlt_Qlt in Hn. change (inject_Z 0) with 0 in Hn.
    unfold yield_value, lower_bound, total_premiums_of in *. rational_arith.
    field. split; lra.
  - intros Hacc. exact (worst_yield_accuracy rnd Hr Hacc c Hv).
Qed.

Lemma yield_within_bounds_witness :
  rounding round53 /\ valid_params thirds /\
  representable round53 (annual_premium thirds) /\
  accurate round53 /\
  (exists (ys : list Q) (s' : rng Q),
      simulate_yield_distribution (num := rounded round53) thirds
                                  (const_rng (1 # 2)) = Ok (ys, s') /\
      Forall (fun y => worst_yield round53 thirds <= y /\ y <= 100) ys /\
      (accurate round53 ->
       Forall (fun y => lower_bound thirds - tolerance thirds <= y /\
                        y <= 100) ys)) /\
  (exists v : Q,
      yield_of_fires (num := rounded round53) thirds
                     (total_premiums_of (num := rounded round53) thirds)
                     (num_policies thirds) (const_rng (1 # 2))
      = Ok (v, const_rng (1 # 2)) /\
      v = worst_yield round53 thirds) /\
  (exists v : Q,
      yield_of_fires (num := rounded round53) thirds
                     (total_premiums_of (num := rounded round53) thirds) 0
                     (const_rng (1 # 2))
      = Ok (v, const_rng (1 # 2)) /\
      v == 100) /\
  yield_value (num := rational) thirds (total_premiums_of thirds)
              (num_policies thirds)
  == lower_bound thirds /\
  (accurate round53 ->
   lower_bound thirds - tolerance thirds <= worst_yield round53 thirds).
Proof.
  assert (H1 : valid_params thirds) by solve_valid.
  assert (H2 : representable round53 (annual_premium thirds))
    by (vm_compute; reflexivity).
  split; [exact round53_rounding|]. split; [exact H1|]. split; [exact H2|].
  split; [exact round53_accurate|].
  exact (yield_within_bounds round53 thirds (const_rng (1 # 2))
           round53_rounding H1 H2).
Defined.

(** ** The summarizer, over exact arithmetic *)

(** *** Sorting *)

Lemma Qle_bool_cases (x y : Q) :
  (Qle_bool x y = true /\ x <= y) \/ (Qle_bool x y = false /\ y < x).
Proof.
  destruct (Qle_bool x y) eqn:E.
  - left. split; [reflexivity | now apply Qle_bool_iff].
  - right. split; [reflexivity|].
    apply Qnot_le_lt. intros H. apply Qle_bool_iff in H. congruence.
Qed.

Lemma eqlist_refl (l : list Q) : eqlist l l.
Proof.
  induction l; constructor; [reflexivity | assumption].
Qed.

Lemma eqlist_trans (l1 l2 l3 : list Q) :
  eqlist l1 l2 -> eqlist l2 l3 -> eqlist l1 l3.
Proof.
  intros H. revert l3. induction H as [|x y l l' Hxy _ IH]; intros l3 H3.
  - exact H3.
  - inversion H3 as [|y' z l2' l3' Hyz H3']; subst.
    constructor; [now rewrite Hxy | now apply IH].
Qed.

Lemma eqlist_nth (l l' : list Q) (i : nat) :
  eqlist l l' -> nth i l 0 == nth i l' 0.
Proof.
  intros H. revert i. induction H as [|x y l l' Hxy _ IH]; intros [|i];
    simpl; try reflexivity; [exact Hxy | apply IH].
Qed.

Lemma insert_length (x : Q) (l : list Q) :
  length (insert x l) = S (length l).
Proof.
  induction l as [|h t IH]; simpl; [reflexivity|].
  destruct (Qle_bool x h); simpl; [reflexivity | now rewrite IH].
Qed.

Lemma sort_length (l : list Q) : length (sort l) = length l.
Proof.
  induction l as [|h t IH]; simpl; [reflexivity|].
  now rewrite insert_length, IH.
Qed.

Lemma insert_perm (x : Q) (l : list Q) : Permutation (x :: l) (insert x l).
Proof.
  induction l as [|h t IH]; simpl; [reflexivity|].
  destruct (Qle_bool x h); [reflexivity|].
  rewrite perm_swap. now apply perm_skip.
Qed.

(** The sorted array holds the same values as the input. *)
Lemma sort_perm (l : list Q) : Permutation l (sort l).
Proof.
  induction l as [|h t IH]; simpl; [reflexivity|].
  rewrite <- insert_perm. now apply perm_skip.
Qed.

Lemma insert_sorted (x : Q) (l : list Q) :
  Sorted Qle l -> Sorted Qle (insert x l).
Proof.
  induction l as [|h t IH]; intros H; simpl.
  - repeat constructor.
  - destruct (Qle_bool_cases x h) as [[E Hle]|[E Hlt]]; rewrite E.
    + constructor; [exact H | constructor; exact Hle].
    + inversion H as [|? ? Ht Hh]; subst.
      constructor; [now apply IH|].
      destruct t as [|h' t']; simpl.
      * constructor. lra.
      * inversion Hh; subst.
        destruct (Qle_bool x h'); constructor; [lra | assumption].
Qed.

(** The sorted array is in non-decreasing order. *)
Lemma sort_sorted (l : list Q) : Sorted Qle (sort l).
Proof.
  induction l as [|h t IH]; simpl; [constructor | now apply insert_sorted].
Qed.

(** Sorting leaves a sorted array as it is. *)
Lemma sort_id (l : list Q) : Sorted Qle l -> sort l = l.
Proof.
  induction l as [|h t IH]; intros H; simpl; [reflexivity|].
  inversion H as [|? ? Ht Hh]; subst. rewrite (IH Ht).
  destruct Hh as [|h' t' Hle]; simpl; [reflexivity|].
  apply Qle_bool_iff in Hle. now rewrite Hle.
Qed.

Lemma insert_compat (x x' : Q) (l l' : list Q) :
  x == x' -> eqlist l l' -> eqlist (insert x l) (insert x' l').
Proof.
  intros Hx H. induction H as [|h h' t t' Hh Ht IH]; simpl.
  - repeat constructor. exact Hx.
  - rewrite Hx, Hh.
    destruct (Qle_bool x' h'); repeat constructor; assumption.
Qed.

Ltac order_cases x y :=
  let E := fresh "E" in let H := fresh "H" in
  destruct (Qle_bool_cases x y) as [[E H]|[E H]]; rewrite ?E.

Ltac eqlist_step :=
  first [ exfalso; lra
        | apply eqlist_refl
        | assumption
        | apply Forall2_cons; [lra|] ].

Lemma insert_swap (x y : Q) (l : list Q) :
  eqlist (insert x (insert y l)) (insert y (insert x l)).
Proof.
  induction l as [|h t IH]; simpl.
  - order_cases x y; order_cases y x; repeat eqlist_step.
  - order_cases y h; order_cases x h; simpl; rewrite ?E, ?E0;
      order_cases x y; order_cases y x; repeat eqlist_step.
Qed.

(** Sorting two arrangements of the same values gives the same array. *)
Lemma sort_perm_eqlist (l l' : list Q) :
  Permutation l l' -> eqlist (sort l) (sort l').
Proof.
  induction 1 as [|x l l' _ IH|x y l|l1 l2 l3 _ IH1 _ IH2]; simpl.
  - constructor.
  - apply insert_compat; [reflexivity | exact IH].
  - apply insert_swap.
  - exact (eqlist_trans _ _ _ IH1 IH2).
Qed.

(** The sorted array is the only sorted arrangement of the input. *)
Lemma sorted_perm_unique (l s : list Q) :
  Permutation l s -> Sorted Qle s -> eqlist (sort l) s.
Proof.
  intros HP HS. rewrite <- (sort_id s HS). now apply sort_perm_eqlist.
Qed.

(** *** Indexing *)

Lemma getitem_nth (arr : list Q) (i : Z) :
  (0 <= i < Z.of_nat (length arr))%Z ->
  getitem arr i = Ok (nth (Z.to_nat i) arr 0).
Proof.
  intros H. unfold getitem.
  replace (i <? 0)%Z with false by (symmetry; apply Z.ltb_ge; lia).
  replace (0 <=? i)%Z with true by (symmetry; apply Z.leb_le; lia).
  replace (i <? Z.of_nat (length arr))%Z with true
    by (symmetry; apply Z.ltb_lt; lia).
  simpl. rewrite (nth_error_nth' arr 0) by lia. reflexivity.
Qed.

Lemma getitem_last (arr : list Q) :
  arr <> [] ->
  getitem arr (-1) = Ok (nth (Z.to_nat (Z.of_nat (length arr) - 1)) arr 0).
Proof.
  intros H. unfold getitem.
  assert (L : (1 <= Z.of_nat (length arr))%Z).
  { destruct arr; [contradiction | simpl length; lia]. }
  change (-1 <? 0)%Z with true. cbv iota.
  replace (0 <=? -1 + Z.of_nat (length arr))%Z with true
    by (symmetry; apply Z.leb_le; lia).
  replace (-1 + Z.of_nat (length arr) <? Z.of_nat (length arr))%Z with true
    by (symmetry; apply Z.ltb_lt; lia).
  simpl andb. cbv iota.
  rewrite (nth_error_nth' arr 0) by lia.
  do 3 f_equal. lia.
Qed.

Lemma getitem_empty (i : Z) : getitem [] i = Raise IndexError.
Proof.
  unfold getitem. simpl length. change (Z.of_nat 0) with 0%Z.
  set (j := if (i <? 0)%Z then (i + 0)%Z else i).
  destruct ((0 <=? j)%Z && (j <? 0)%Z) eqn:E; [|reflexivity].
  apply andb_true_iff in E. destruct E as [E1 E2].
  apply Z.leb_le in E1. apply Z.ltb_lt in E2. lia.
Qed.

(** *** The percentile *)

Lemma spec_percentile_compat (s s' : list Q) (q : Q) :
  eqlist s s' -> spec_percentile s q == spec_percentile s' q.
Proof.
  intros H. unfold spec_percentile.
  rewrite <- (Forall2_length H).
  set (rank := q / 100 * (inject_Z (Z.of_nat (length s)) - 1)).
  rewrite (eqlist_nth _ _ (Z.to_nat (Qfloor rank)) H).
  rewrite (eqlist_nth _ _ (Z.to_nat (Qceiling rank)) H).
  reflexivity.
Qed.

(** The ceiling of a rank is its floor or the next integer. *)
Lemma Qceiling_floor (x : Q) :
  (Qceiling x = Qfloor x /\ x == inject_Z (Qfloor x)) \/
  Qceiling x = (Qfloor x + 1)%Z.
Proof.
  pose proof (Qfloor_le x) as H1. pose proof (Qlt_floor x) as H2.
  pose proof (Qle_ceiling x) as H3. pose proof (Qceiling_lt x) as H4.
  assert (A : (Qfloor x <= Qceiling x)%Z).
  { rewrite Zle_Qle. lra. }
  assert (B : (Qceiling x - 1 < Qfloor x + 1)%Z).
  { rewrite Zlt_Qlt. lra. }
  destruct (Z.eq_dec (Qceiling x) (Qfloor x)) as [E|E].
  - left. split; [exact E|]. rewrite E in H3. lra.
  - right. lia.
Qed.

Lemma lerp_linear (a b t : Q) : lerp a b t == a + (b - a) * t.
Proof.
  unfold lerp. destruct (Qle_bool (1 # 2) t); ring.
Qed.

Lemma inject_Z_pred (z : Z) : inject_Z (z - 1) == inject_Z z - 1.
Proof.
  unfold Z.sub. rewrite inject_Z_plus, inject_Z_opp. reflexivity.
Qed.

Lemma inject_Z_succ (z : Z) : inject_Z (z + 1) == inject_Z z + 1.
Proof.
  rewrite inject_Z_plus. reflexivity.
Qed.

Lemma percent_range (q : Q) :
  0 <= q <= 100 -> 0 <= q / 100 <= 1.
Proof.
  intros [H0 H1]. unfold Qdiv. change (/ 100) with (1 # 100). lra.
Qed.

(** On a non-empty array numpy's percentile succeeds and is the
    interpolation of the specification over the sorted array. *)
Lemma np_percentile_spec (arr : list Q) (q : Q) :
  arr <> [] -> 0 <= q <= 100 ->
  exists v : Q,
    np_percentile arr q = Ok v /\ v == spec_percentile (sort arr) q.
Proof.
  intros Hne Hq.
  destruct (percent_range q Hq) as [Hq0 Hq1].
  assert (Hs : sort arr <> []).
  { intros E. apply Hne. apply length_zero_iff_nil.
    now rewrite <- sort_length, E. }
  assert (HN : (1 <= Z.of_nat (length arr))%Z).
  { destruct arr; [contradiction | simpl length; lia]. }
  unfold np_percentile.
  rewrite (proj2 (Qle_bool_iff _ _) Hq0), (proj2 (Qle_bool_iff _ _) Hq1).
  simpl andb. cbv iota.
  unfold quantile, get_indexes, spec_percentile.
  rewrite (getitem_last _ Hs), !sort_length.
  set (N := Z.of_nat (length arr)) in *.
  set (vi := (inject_Z N - 1) * (q / 100)).
  set (rank := q / 100 * (inject_Z N - 1)).
  assert (Hrank : rank == vi) by (unfold rank, vi; ring).
  assert (HN' : 1 <= inject_Z N).
  { change 1 with (inject_Z 1). now rewrite <- Zle_Qle. }
  assert (Hvi0 : 0 <= vi).
  { unfold vi. apply Qmult_le_0_compat; lra. }
  assert (Hvi1 : vi <= inject_Z N - 1).
  { assert (0 <= (inject_Z N - 1) * (1 - q / 100))
      by (apply Qmult_le_0_compat; lra).
    unfold vi. lra. }
  replace (Qltb vi 0) with false
    by (symmetry; unfold Qltb; apply negb_false_iff, Qle_bool_iff, Hvi0).
  assert (Ef : Qfloor rank = Qfloor vi) by (now rewrite Hrank).
  assert (Ec : Qceiling rank = Qceiling vi) by (now rewrite Hrank).
  rewrite Ef, Ec.
  set (last := nth (Z.to_nat (N - 1)) (sort arr) 0).
  destruct (Qle_bool_cases (inject_Z N - 1) vi) as [[E Hle]|[E Hlt]];
    rewrite E.
  - (* the rank is the last index *)
    assert (Hv : vi == inject_Z (N - 1)) by (rewrite inject_Z_pred; lra).
    assert (Ef' : Qfloor vi = (N - 1)%Z) by (rewrite Hv; apply Qfloor_Z).
    assert (Ec' : Qceiling vi = (N - 1)%Z) by (rewrite Hv; apply Qceiling_Z).
    rewrite Ef', Ec'. fold last.
    rewrite (getitem_last _ Hs), sort_length. fold N. fold last.
    cbn [rbind].
    eexists. split; [reflexivity|].
    rewrite lerp_linear.
    generalize (vi - inject_Z (-1)) (rank - inject_Z (N - 1)) last.
    intros x y z. ring.
  - (* the rank lies strictly below the last index *)
    pose proof (Qfloor_le vi) as F1. pose proof (Qlt_floor vi) as F2.
    assert (F0 : (0 <= Qfloor vi)%Z).
    { change 0%Z with (Qfloor 0). now apply Qfloor_resp_le. }
    assert (F3 : (Qfloor vi < N - 1)%Z).
    { rewrite Zlt_Qlt, inject_Z_pred. lra. }
    rewrite !getitem_nth by (rewrite sort_length; fold N; lia).
    cbn [rbind].
    eexists. split; [reflexivity|].
    rewrite lerp_linear.
    destruct (Qceiling_floor vi) as [[C Hint]|C]; rewrite C.
    + assert (G : vi - inject_Z (Qfloor vi) == 0) by lra.
      rewrite Hrank, G. ring.
    + rewrite Hrank. ring.
Qed.

(** The interpolation stays inside an array whose values are all [v]. *)
Lemma spec_percentile_const (s : list Q) (v q : Q) :
  s <> [] -> 0 <= q <= 100 -> Forall (fun y => y == v) s ->
  spec_percentile s q == v.
Proof.
  intros Hne Hq Hall.
  destruct (percent_range q Hq) as [Hq0 Hq1].
  assert (HN : (1 <= Z.of_nat (length s))%Z).
  { destruct s; [contradiction | simpl length; lia]. }
  unfold spec_percentile.
  set (N := Z.of_nat (length s)) in *.
  set (rank := q / 100 * (inject_Z N - 1)).
  assert (HN' : 1 <= inject_Z N).
  { change 1 with (inject_Z 1). now rewrite <- Zle_Qle. }
  assert (Hr : rank <= inject_Z (N - 1)).
  { assert (0 <= (1 - q / 100) * (inject_Z N - 1))
      by (apply Qmult_le_0_compat; lra).
    rewrite inject_Z_pred. unfold rank. lra. }
  assert (Hf : (Qfloor rank <= N - 1)%Z).
  { rewrite Zle_Qle. pose proof (Qfloor_le rank). lra. }
  assert (Hc : (Qceiling rank <= N - 1)%Z).
  { rewrite <- (Qceiling_Z (N - 1)). now apply Qceiling_resp_le. }
  assert (In_v : forall i : nat, (i < length s)%nat -> nth i s 0 == v).
  { intros i Hi. rewrite Forall_forall in Hall. apply Hall.
    now apply nth_In. }
  rewrite (In_v (Z.to_nat (Qfloor rank))) by lia.
  rewrite (In_v (Z.to_nat (Qceiling rank))) by lia.
  ring.
Qed.

(** *** The mean *)

Lemma fold_left_sum (xs : list Q) (acc : Q) :
  fold_left Qplus xs acc == acc + sum_of xs.
Proof.
  revert acc. induction xs as [|x t IH]; intros acc; simpl.
  - ring.
  - rewrite IH. ring.
Qed.

Lemma np_sum_sum_of (xs : list Q) : np_sum xs == sum_of xs.
Proof.
  unfold np_sum. rewrite fold_left_sum. ring.
Qed.

Lemma np_mean_nonempty (xs : list Q) :
  xs <> [] ->
  np_mean xs = fin (np_sum xs / inject_Z (Z.of_nat (length xs))).
Proof.
  intros H. unfold np_mean. destruct xs; [contradiction | reflexivity].
Qed.

Lemma count_nonzero (xs : list Q) :
  xs <> [] -> ~ inject_Z (Z.of_nat (length xs)) == 0.
Proof.
  intros H E. change 0 with (inject_Z 0) in E.
  apply inject_Z_injective in E.
  destruct xs; [contradiction | discriminate E].
Qed.

Lemma sum_of_const (xs : list Q) (v : Q) :
  Forall (fun y => y == v) xs ->
  sum_of xs == v * inject_Z (Z.of_nat (length xs)).
Proof.
  induction 1 as [|x t Hx _ IH].
  - simpl. ring.
  - cbv beta in Hx. simpl sum_of. simpl length. rewrite IH, Hx.
    rewrite Nat2Z.inj_succ. unfold Z.succ. rewrite inject_Z_succ. ring.
Qed.

(** *** Mean and percentiles together *)

(** On a non-empty distribution the summarizer succeeds; its mean is the
    sum divided by the count and its percentiles those of the
    specification over the sorted samples. *)
Lemma summarize_nonempty (ys : list Q) :
  ys <> [] ->
  exists a b : Q,
    summarize_and_plot_yields ys
    = Ok (mk_report (fin (np_sum ys / inject_Z (Z.of_nat (length ys)))) a b)
    /\ a == spec_percentile (sort ys) 5
    /\ b == spec_percentile (sort ys) 95.
Proof.
  intros H.
  destruct (np_percentile_spec ys 5 H) as [a [Ha Ea]]; [lra|].
  destruct (np_percentile_spec ys 95 H) as [b [Hb Eb]]; [lra|].
  exists a, b. unfold summarize_and_plot_yields.
  rewrite Ha, Hb, np_mean_nonempty by exact H.
  cbn [rbind]. repeat split; assumption.
Qed.

(** On an empty distribution [np.mean] gives [nan] and the first call of
    [np.percentile] fails on reading [arr[-1]]. *)
Lemma summarize_empty : summarize_and_plot_yields [] = Raise IndexError.
Proof. reflexivity. Qed.

(** A distribution whose samples all equal [v] has mean and percentiles
    [v]. *)
Lemma summarize_const (ys : list Q) (v : Q) :
  ys <> [] -> Forall (fun y => y == v) ys ->
  exists (r : report) (m : Q),
    summarize_and_plot_yields ys = Ok r /\
    mean_yield r = fin m /\ m == v /\ p5 r == v /\ p95 r == v.
Proof.
  intros Hne Hall.
  destruct (summarize_nonempty ys Hne) as (a & b & Hr & Ha & Hb).
  assert (Hs : sort ys <> []).
  { intros E. apply Hne. apply length_zero_iff_nil.
    now rewrite <- sort_length, E. }
  assert (Hall' : Forall (fun y => y == v) (sort ys)).
  { apply (Permutation_Forall (sort_perm ys) Hall). }
  eexists. eexists. split; [exact Hr|]. simpl.
  split; [reflexivity|]. split; [|split].
  - rewrite np_sum_sum_of, (sum_of_const ys v Hall).
    field. now apply count_nonzero.
  - rewrite Ha. apply spec_percentile_const; [exact Hs | lra | exact Hall'].
  - rewrite Hb. apply spec_percentile_const; [exact Hs | lra | exact Hall'].
Qed.

(** C4, as the specification states it, fails: on the zero-length
    distribution the summarizer does not raise [EmptyDistribution]; the
    failure comes from inside numpy's percentile, as an [IndexError]. *)
Lemma empty_distribution_not_raised :
  summarize_and_plot_yields [] = Raise IndexError /\
  summarize_and_plot_yields [] <> Raise EmptyDistribution.
Proof.
  split; [reflexivity | discriminate].
Qed.

(** C4, amended: the summarizer has no emptiness check and never raises
    [EmptyDistribution]; on every non-empty distribution it succeeds and
    reports a finite mean, the 5th and the 95th percentile. *)
Theorem summarize_total_on_nonempty (ys : list Q) :
  summarize_and_plot_yields ys <> Raise EmptyDistribution /\
  (ys <> [] ->
   exists m a b : Q,
     summarize_and_plot_yields ys = Ok (mk_report (fin m) a b)).
Proof.
  assert (H : ys <> [] ->
              exists m a b : Q,
                summarize_and_plot_yields ys = Ok (mk_report (fin m) a b)).
  { intros Hne. destruct (summarize_nonempty ys Hne) as (a & b & Hr & _).
    eexists. exists a, b. exact Hr. }
  split; [|exact H].
  destruct ys as [|y t].
  - discriminate.
  - destruct H as (m & a & b & Hr); [discriminate|].
    rewrite Hr. discriminate.
Qed.

Lemma summarize_total_on_nonempty_witness :
  [7] <> [] /\
  summarize_and_plot_yields [7] <> Raise EmptyDistribution /\
  exists m a b : Q,
    summarize_and_plot_yields [7] = Ok (mk_report (fin m) a b).
Proof.
  assert (H : [7] <> []) by discriminate.
  split; [exact H|]. split.
  - exact (proj1 (summarize_total_on_nonempty [7])).
  - exact (proj2 (summarize_total_on_nonempty [7]) H).
Defined.

(** C5: on every non-empty distribution the two percentiles of the
    summarizer are the linear interpolation between order statistics: for
    any sorted arrangement [s] of the [n] samples the rank of percentile
    [q] is [q / 100 * (n - 1)] and the result interpolates between the
    values of [s] at the floor and the ceiling of the rank.  For
    [10, 20, 30, 40, 50] the 5th percentile is 12 and the 95th is 48. *)
Theorem percentiles_linear_interpolation :
  (forall ys s : list Q,
      ys <> [] -> Permutation ys s -> Sorted Qle s ->
      exists r : report,
        summarize_and_plot_yields ys = Ok r /\
        p5 r == spec_percentile s 5 /\
        p95 r == spec_percentile s 95) /\
  (exists r : report,
      summarize_and_plot_yields [10; 20; 30; 40; 50] = Ok r /\
      p5 r == 12 /\ p95 r == 48).
Proof.
  split.
  - intros ys s Hne HP HS.
    destruct (summarize_nonempty ys Hne) as (a & b & Hr & Ha & Hb).
    pose proof (sorted_perm_unique ys s HP HS) as Hu.
    eexists. split; [exact Hr|]. simpl. split.
    + rewrite Ha. now apply spec_percentile_compat.
    + rewrite Hb. now apply spec_percentile_compat.
  - eexists. split; [vm_compute; reflexivity|].
    split; vm_compute; reflexivity.
Qed.

Lemma percentiles_linear_interpolation_witness :
  [30; 10; 50; 20; 40] <> [] /\
  Permutation [30; 10; 50; 20; 40] [10; 20; 30; 40; 50] /\
  Sorted Qle [10; 20; 30; 40; 50] /\
  exists r : report,
    summarize_and_plot_yields [30; 10; 50; 20; 40] = Ok r /\
    p5 r == spec_percentile [10; 20; 30; 40; 50] 5 /\
    p95 r == spec_percentile [10; 20; 30; 40; 50] 95.
Proof.
  assert (H1 : [30; 10; 50; 20; 40] <> []) by discriminate.
  assert (H2 : Permutation [30; 10; 50; 20; 40] [10; 20; 30; 40; 50]).
  { apply (sort_perm [30; 10; 50; 20; 40]). }
  assert (H3 : Sorted Qle [10; 20; 30; 40; 50]).
  { apply (sort_sorted [30; 10; 50; 20; 40]). }
  split; [exact H1|]. split; [exact H2|]. split; [exact H3|].
  exact (proj1 percentiles_linear_interpolation _ _ H1 H2 H3).
Defined.

(** C6: on every non-empty distribution the mean of the summarizer is the
    arithmetic average, the sum of the samples divided by their count; for
    [0, 100] it is 50. *)
Theorem mean_is_arithmetic_average :
  (forall ys : list Q,
      ys <> [] ->
      exists (r : report) (m : Q),
        summarize_and_plot_yields ys = Ok r /\
        mean_yield r = fin m /\ m == arithmetic_average ys) /\
  (exists (r : report) (m : Q),
      summarize_and_plot_yields [0; 100] = Ok r /\
      mean_yield r = fin m /\ m == 50).
Proof.
  split.
  - intros ys Hne.
    destruct (summarize_nonempty ys Hne) as (a & b & Hr & _).
    eexists. eexists. split; [exact Hr|]. simpl. split; [reflexivity|].
    unfold arithmetic_average. now rewrite np_sum_sum_of.
  - eexists. eexists. split; [vm_compute; reflexivity|].
    simpl. split; [reflexivity | vm_compute; reflexivity].
Qed.

Lemma mean_is_arithmetic_average_witness :
  [0; 100] <> [] /\
  exists (r : report) (m : Q),
    summarize_and_plot_yields [0; 100] = Ok r /\
    mean_yield r = fin m /\ m == arithmetic_average [0; 100].
Proof.
  assert (H : [0; 100] <> []) by discriminate.
  split; [exact H | exact (proj1 mean_is_arithmetic_average _ H)].
Defined.

(** ** The two end-to-end scenarios *)

(** When every trial on a valid generator yields [v], so does the loop. *)
Lemma trials_const (c : params Q) (total v : Q) :
  (forall s : rng Q, valid_rng s ->
     trial c total s = Ok (v, skip (draws_per_trial c) s)) ->
  forall (n : nat) (yields : list Q) (s : rng Q),
    valid_rng s ->
    trials c total n yields s
    = Ok (yields ++ repeat v n, skip (n * draws_per_trial c) s).
Proof.
  intros Ht. induction n as [|n IH]; intros yields s Hs.
  - simpl. unfold ret. now rewrite app_nil_r, skip_0.
  - simpl trials. unfold bind. rewrite (Ht s Hs).
    rewrite IH by (now apply valid_rng_skip).
    rewrite skip_skip, <- app_assoc. reflexivity.
Qed.

(** With both hazard bounds 0 the hazard rate is 0 and no policy has an
    event. *)
Lemma trial_none (c : params Q) (total : Q) (s : rng Q) :
  is_zero total = false -> p_min c == 0 -> p_max c == 0 -> valid_rng s ->
  trial c total s
  = Ok (yield_value c total 0, skip (draws_per_trial c) s).
Proof.
  intros HT Hlo Hhi Hs. unfold trial, uniform, bind.
  rewrite random_step. unfold ret.
  rewrite count_fires_none.
  - rewrite yield_of_fires_ok, skip_skip by exact HT. reflexivity.
  - now apply valid_rng_skip.
  - rational_arith. rewrite Hlo, Hhi. lra.
Qed.

(** With both hazard bounds 1 the hazard rate is 1 and every policy has an
    event. *)
Lemma trial_all (c : params Q) (total : Q) (s : rng Q) :
  is_zero total = false -> p_min c == 1 -> p_max c == 1 -> valid_rng s ->
  trial c total s
  = Ok (yield_value c total (Z.of_nat (Z.to_nat (num_policies c))),
        skip (draws_per_trial c) s).
Proof.
  intros HT Hlo Hhi Hs. unfold trial, uniform, bind.
  rewrite random_step. unfold ret.
  rewrite count_fires_all.
  - rewrite yield_of_fires_ok, skip_skip by exact HT. reflexivity.
  - now apply valid_rng_skip.
  - rational_arith. rewrite Hlo, Hhi. lra.
Qed.

Lemma repeat_nonempty (v : Q) (n : nat) : (0 < n)%nat -> repeat v n <> [].
Proof.
  destruct n; [lia | discriminate].
Qed.

Lemma repeat_all (v w : Q) (n : nat) :
  v == w -> Forall (fun y => y == w) (repeat v n).
Proof.
  intros H. apply Forall_forall. intros x Hx.
  apply repeat_spec in Hx. now subst x.
Qed.

(** C7: with population 100, charge 1000, loss 50000, 5000 trials and
    hazard bounds [0, 0], whatever the random source draws, each of the
    5000 samples is 100, and so are the mean and both percentiles. *)
Theorem scenario_none_all_100 (s : rng Q) :
  valid_rng s ->
  exists (ys : list Q) (s' : rng Q),
    simulate_yield_distribution scenario_none s = Ok (ys, s') /\
    length ys = 5000%nat /\
    Forall (fun y => y == 100) ys /\
    exists (r : report) (m : Q),
      summarize_and_plot_yields ys = Ok r /\
      mean_yield r = fin m /\ m == 100 /\ p5 r == 100 /\ p95 r == 100.
Proof.
  intros Hs.
  assert (HT : is_zero (total_premiums_of (scenario_none (F:=Q))) = false)
    by reflexivity.
  set (v := yield_value (scenario_none (F:=Q))
              (total_premiums_of scenario_none) 0).
  assert (Hv : v == 100) by (vm_compute; reflexivity).
  pose (n := Z.to_nat (simulations (scenario_none (F:=Q)))).
  assert (Hn : n = 5000%nat) by reflexivity.
  exists (repeat v n), (skip (n * draws_per_trial scenario_none) s).
  split; [|split; [|split]].
  - unfold simulate_yield_distribution.
    apply (trials_const scenario_none _ v) with (yields := []); [|exact Hs].
    intros s0 Hs0. apply trial_none; [exact HT | | | exact Hs0]; reflexivity.
  - rewrite repeat_length. exact Hn.
  - now apply repeat_all.
  - apply summarize_const; [|now apply repeat_all].
    apply repeat_nonempty. rewrite Hn. lia.
Qed.

Lemma valid_const_rng : valid_rng (const_rng (1 # 2)).
Proof.
  intros i. simpl. split; lra.
Qed.

Lemma scenario_none_all_100_witness :
  valid_rng (const_rng (1 # 2)) /\
  exists (ys : list Q) (s' : rng Q),
    simulate_yield_distribution scenario_none (const_rng (1 # 2))
    = Ok (ys, s') /\
    length ys = 5000%nat /\
    Forall (fun y => y == 100) ys /\
    exists (r : report) (m : Q),
      summarize_and_plot_yields ys = Ok r /\
      mean_yield r = fin m /\ m == 100 /\ p5 r == 100 /\ p95 r == 100.
Proof.
  split; [exact valid_const_rng|].
  exact (scenario_none_all_100 _ valid_const_rng).
Defined.

(** C8: with the same configuration and hazard bounds [1, 1], whatever the
    random source draws, every policy has an event in every trial: each of
    the 5000 samples is -4900, and so are the mean and both percentiles. *)
Theorem scenario_all_minus_4900 (s : rng Q) :
  valid_rng s ->
  exists (ys : list Q) (s' : rng Q),
    simulate_yield_distribution scenario_all s = Ok (ys, s') /\
    length ys = 5000%nat /\
    Forall (fun y => y == -4900) ys /\
    exists (r : report) (m : Q),
      summarize_and_plot_yields ys = Ok r /\
      mean_yield r = fin m /\ m == -4900 /\
      p5 r == -4900 /\ p95 r == -4900.
Proof.
  intros Hs.
  assert (HT : is_zero (total_premiums_of (scenario_all (F:=Q))) = false)
    by reflexivity.
  set (v := yield_value (scenario_all (F:=Q))
              (total_premiums_of scenario_all)
              (Z.of_nat (Z.to_nat (num_policies (scenario_all (F:=Q)))))).
  assert (Hv : v == -4900) by (vm_compute; reflexivity).
  pose (n := Z.to_nat (simulations (scenario_all (F:=Q)))).
  assert (Hn : n = 5000%nat) by reflexivity.
  exists (repeat v n), (skip (n * draws_per_trial scenario_all) s).
  split; [|split; [|split]].
  - unfold simulate_yield_distribution.
    apply (trials_const scenario_all _ v) with (yields := []); [|exact Hs].
    intros s0 Hs0. apply trial_all; [exact HT | | | exact Hs0]; reflexivity.
  - rewrite repeat_length. exact Hn.
  - now apply repeat_all.
  - apply summarize_const; [|now apply repeat_all].
    apply repeat_nonempty. rewrite Hn. lia.
Qed.

Lemma scenario_all_minus_4900_witness :
  valid_rng (const_rng (1 # 2)) /\
  exists (ys : list Q) (s' : rng Q),
    simulate_yield_distribution scenario_all (const_rng (1 # 2))
    = Ok (ys, s') /\
    length ys = 5000%nat /\
    Forall (fun y => y == -4900) ys /\
    exists (r : report) (m : Q),
      summarize_and_plot_yields ys = Ok r /\
      mean_yield r = fin m /\ m == -4900 /\
      p5 r == -4900 /\ p95 r == -4900.
Proof.
  split; [exact valid_const_rng|].
  exact (scenario_all_minus_4900 _ valid_const_rng).
Defined.

(** ** On IEEE doubles *)

(** The draw 0.5 lies in [0, 1). *)
Example half_is_a_draw :
  Q_of_float half = Some (4503599627370496 # 9007199254740992) /\
  ltb half (of_int 0) = false /\ ltb half (of_int 1) = true.
Proof.
  repeat split; vm_compute; reflexivity.
Qed.

(** C2, as the specification states it, fails on the doubles the program
    computes with.  One policy, charge 3.0, loss 1.0, one trial and hazard
    bounds [1.0, 1.0] are a valid configuration; the policy has its event
    and the sample [2.0 / 3.0 * 100] is the double
    66.66666666666665719..., below the lower end [100 - 1.0 / 3.0 * 100]
    both as the double 66.66666666666667140... and as the real 200/3. *)
Lemma lower_end_missed_on_doubles :
  valid_params thirds /\
  exists y : PrimFloat.float,
    outcome (simulate_yield_distribution thirds (const_rng half)) = Ok [y] /\
    ltb y (lower_bound thirds) = true /\
    Q_of_float y = Some (4691249611844266 # 70368744177664) /\
    Q_of_float (lower_bound thirds)
    = Some (4691249611844267 # 70368744177664) /\
    4691249611844266 # 70368744177664 < lower_bound (thirds (F:=Q)).
Proof.
  split; [solve_valid|].
  eexists. split; [vm_compute; reflexivity|].
  repeat split; vm_compute; reflexivity.
Qed.

(** On every pair of the doubles of [some_doubles], sum, difference,
    product, quotient and comparison on doubles are those of
    [rounded round53]; so are the doubles of some integers, of more than 53
    bits among them. *)
Example round53_agrees_with_doubles :
  forallb (fun x => forallb (agree_at x) some_doubles) some_doubles = true /\
  forallb (fun z => same_value (of_int z)
                               (of_int (Number := rounded round53) z))
          [0; 1; -1; 100; 9007199254740993; -9007199254740995;
           1152921504606846977; 2 ^ 100 + 12345; 2 ^ 63; - 2 ^ 63]%Z = true.
Proof.
  split; vm_compute; reflexivity.
Qed.

(** The arithmetic [rounded round53] computes what the doubles compute.
    At the configuration above its sample is the double of the program, one
    unit in the last place below the rounding of the specification's lower
    end. *)
Example round53_sample_of_thirds :
  exists y : Q,
    outcome (simulate_yield_distribution (num := rounded round53) thirds
                                         (const_rng (1 # 2))) = Ok [y] /\
    y == 4691249611844266 # 70368744177664 /\
    worst_yield round53 thirds == 4691249611844266 # 70368744177664 /\
    round53 (lower_bound thirds) == 4691249611844267 # 70368744177664.
Proof.
  eexists. split; [vm_compute; reflexivity|].
  repeat split; vm_compute; reflexivity.
Qed.

(** Rounding changes event counts, not only the last digits of a sample.
    With the bounds [0.25, 0.75] and the draw [0.5 + 2^-53] the hazard rate
    [0.25 + 0.5 * (0.5 + 2^-53)] is [0.5 + 2^-54], which rounds to the
    double 0.5; the policy draws 0.5 and has its event in exact arithmetic
    only: the exact sample is -4900 where the sample on doubles, and in
    [rounded round53], is 100. *)
Example rounding_changes_event_counts :
  valid_params quarters /\
  (exists y : Q,
      outcome (simulate_yield_distribution (num := rational) quarters
                                           tie_rng) = Ok [y] /\
      y == -4900) /\
  outcome (simulate_yield_distribution (num := binary64) quarters tie_rng)
  = Ok [float_of_int 100] /\
  (exists y : Q,
      outcome (simulate_yield_distribution (num := rounded round53)
                 (quarters (num := rounded round53))
                 (tie_rng (num := rounded round53))) = Ok [y] /\
      y == 100).
Proof.
  split; [solve_valid|]. split; [|split].
  - eexists. split; vm_compute; reflexivity.
  - vm_compute. reflexivity.
  - eexists. split; vm_compute; reflexivity.
Qed.

(** A run of twenty trials over fifty policies, with a charge and a loss
    that make every operation round, returns the same twenty samples on
    doubles and in [rounded round53], after the same draws. *)
Example rounded_run_as_on_doubles :
  match simulate_yield_distribution (num := binary64) pool scattered_rng,
        simulate_yield_distribution (num := rounded round53)
          (pool (num := rounded round53))
          (scattered_rng (num := rounded round53)) with
  | Ok (xs, s), Ok (qs, s') =>
      same_values xs qs && (length xs =? 20)%nat && (pos s =? pos s')%nat
  | _, _ => false
  end = true.
Proof. vm_compute. reflexivity. Qed.

(** One trial of each end-to-end scenario on doubles: the samples are the
    doubles 100.0 and -4900.0. *)
Example scenario_samples_on_doubles :
  outcome (trial scenario_none (total_premiums_of scenario_none)
                 (const_rng half))
  = Ok (float_of_int 100) /\
  outcome (trial scenario_all (total_premiums_of scenario_all)
                 (const_rng half))
  = Ok (float_of_int (-4900)).
Proof.
  split; vm_compute; reflexivity.
Qed.

(** * Further properties of the code *)

(** ** The simulator, for every float arithmetic *)

Section SimulatorStructure.

Context {F : Type} {num : Number F}.

Lemma next_draws_S (n : nat) (s : rng F) :
  next_draws (S n) s = tape s (pos s) :: next_draws n (skip 1 s).
Proof.
  unfold next_draws. simpl seq. simpl map. rewrite Nat.add_0_r. f_equal.
  rewrite <- seq_shift, map_map. apply map_ext. intros i. simpl.
  f_equal. lia.
Qed.

(** X1: the event count of a year is the number of the next [n] draws
    that are strictly below the hazard rate, and the year consumes exactly
    these [n] draws. *)
Theorem count_fires_counts_draws_below (n : nat) (p : F) (s : rng F) :
  count_fires n p s
  = Ok (Z.of_nat (length (filter (fun u => ltb u p) (next_draws n s))),
        skip n s).
Proof.
  revert s. induction n as [|n IH]; intros s.
  - simpl. unfold ret. now rewrite skip_0.
  - rewrite next_draws_S. simpl count_fires. unfold bind.
    rewrite random_step, IH. unfold ret. rewrite skip_skip.
    simpl filter. destruct (ltb (tape s (pos s)) p).
    + simpl length. do 2 f_equal. lia.
    + reflexivity.
Qed.

Lemma trials_with_simulations (c : params F) (t : Z) (total : F) (n : nat) :
  forall (yields : list F) (s : rng F),
    trials (with_simulations c t) total n yields s = trials c total n yields s.
Proof.
  induction n as [|n IH]; intros yields s; [reflexivity|].
  simpl trials. unfold bind.
  change (trial (with_simulations c t) total s) with (trial c total s).
  destruct (trial c total s) as [[y s1]|e]; [apply IH | reflexivity].
Qed.

(** The samples collected before a loop starts stay in front. *)
Lemma trials_accumulate (c : params F) (total : F) (n : nat) :
  forall (yields : list F) (s : rng F),
    trials c total n yields s
    = match trials c total n [] s with
      | Ok (ys, s') => Ok (yields ++ ys, s')
      | Raise e => Raise e
      end.
Proof.
  induction n as [|n IH]; intros yields s.
  - simpl. unfold ret. now rewrite app_nil_r.
  - simpl trials. unfold bind.
    destruct (trial c total s) as [[y s1]|e]; [|reflexivity].
    rewrite (IH (yields ++ [y])), (IH ([] ++ [y])).
    destruct (trials c total n [] s1) as [[zs s2]|e]; [|reflexivity].
    now rewrite <- app_assoc.
Qed.

(** A loop of [n + m] trials is a loop of [n] followed by one of [m]. *)
Lemma trials_split (c : params F) (total : F) (n m : nat) :
  forall (yields : list F) (s : rng F),
    trials c total (n + m) yields s
    = match trials c total n yields s with
      | Ok (ys, s') => trials c total m ys s'
      | Raise e => Raise e
      end.
Proof.
  induction n as [|n IH]; intros yields s; [reflexivity|].
  simpl trials. unfold bind.
  destruct (trial c total s) as [[y s1]|e]; [apply IH | reflexivity].
Qed.

(** X3: runs compose.  A run of [t1 + t2] trials returns what a run of
    [t1] trials followed, on the generator it leaves, by a run of [t2]
    trials returns, the two distributions one after the other; it fails
    when one of the two fails. *)
Theorem simulate_runs_compose (c : params F) (t1 t2 : Z) (s : rng F) :
  (0 <= t1)%Z -> (0 <= t2)%Z ->
  simulate_yield_distribution (with_simulations c (t1 + t2)) s
  = match simulate_yield_distribution (with_simulations c t1) s with
    | Ok (ys1, s1) =>
        match simulate_yield_distribution (with_simulations c t2) s1 with
        | Ok (ys2, s2) => Ok (ys1 ++ ys2, s2)
        | Raise e => Raise e
        end
    | Raise e => Raise e
    end.
Proof.
  intros H1 H2. unfold simulate_yield_distribution.
  change (total_premiums_of (with_simulations c (t1 + t2)))
    with (total_premiums_of c).
  change (total_premiums_of (with_simulations c t1))
    with (total_premiums_of c).
  change (total_premiums_of (with_simulations c t2))
    with (total_premiums_of c).
  rewrite !trials_with_simulations.
  change (simulations (with_simulations c (t1 + t2))) with (t1 + t2)%Z.
  change (simulations (with_simulations c t1)) with t1.
  change (simulations (with_simulations c t2)) with t2.
  rewrite Z2Nat.inj_add by assumption.
  rewrite trials_split.
  destruct (trials c (total_premiums_of c) (Z.to_nat t1) [] s)
    as [[ys1 s1]|e]; [|reflexivity].
  rewrite trials_with_simulations. apply trials_accumulate.
Qed.

(** X4: every sample of a run whose total charge is not zero is the value
    the loop body computes for a whole number of events between 0 and the
    population size: a run over [n] policies returns at most [n + 1]
    distinct values, whatever the draws. *)
Theorem samples_are_yields_of_event_counts (c : params F) (s : rng F) :
  is_zero (total_premiums_of c) = false ->
  exists (ys : list F) (s' : rng F),
    simulate_yield_distribution c s = Ok (ys, s') /\
    Forall (fun y =>
              exists k : Z,
                (0 <= k <= Z.max 0 (num_policies c))%Z /\
                y = yield_value c (total_premiums_of c) k)
           ys.
Proof.
  intros HT.
  destruct (simulate_samples c s
              (fun y =>
                 exists k : Z,
                   (0 <= k <= Z.max 0 (num_policies c))%Z /\
                   y = yield_value c (total_premiums_of c) k) HT)
    as (ys & s' & Hys & _ & Hall).
  - intros k Hk. exists k. split; [lia | reflexivity].
  - now exists ys, s'.
Qed.

End SimulatorStructure.

Lemma simulate_runs_compose_witness :
  (0 <= 3)%Z /\ (0 <= 1)%Z /\
  simulate_yield_distribution (with_simulations small_params (3 + 1))
                              cycle_rng
  = match simulate_yield_distribution (with_simulations small_params 3)
                                      cycle_rng with
    | Ok (ys1, s1) =>
        match simulate_yield_distribution (with_simulations small_params 1)
                                          s1 with
        | Ok (ys2, s2) => Ok (ys1 ++ ys2, s2)
        | Raise e => Raise e
        end
    | Raise e => Raise e
    end.
Proof.
  assert (H1 : (0 <= 3)%Z) by lia.
  assert (H2 : (0 <= 1)%Z) by lia.
  split; [exact H1|]. split; [exact H2|].
  exact (simulate_runs_compose small_params 3 1 cycle_rng H1 H2).
Defined.

Lemma samples_are_yields_of_event_counts_witness :
  is_zero (total_premiums_of (thirds (F := PrimFloat.float))) = false /\
  exists (ys : list PrimFloat.float) (s' : rng PrimFloat.float),
    simulate_yield_distribution thirds (const_rng half) = Ok (ys, s') /\
    Forall (fun y =>
              exists k : Z,
                (0 <= k <= Z.max 0 (num_policies
                                      (thirds (F := PrimFloat.float))))%Z /\
                y = yield_value thirds (total_premiums_of thirds) k)
           ys.
Proof.
  assert (H : is_zero (total_premiums_of (thirds (F := PrimFloat.float)))
              = false) by (vm_compute; reflexivity).
  split; [exact H|].
  exact (samples_are_yields_of_event_counts thirds (const_rng half) H).
Defined.

(** ** The simulator, in exact arithmetic *)

(** X5: a negative population size is not rejected.  The range over the
    policies is empty, so every trial consumes one draw only, counts no
    event, and its sample is 100 whatever the other parameters are. *)
Theorem negative_population_yields_100 (c : params Q) (s : rng Q) :
  (num_policies c < 0)%Z -> ~ annual_premium c == 0 ->
  exists ys : list Q,
    simulate_yield_distribution c s
    = Ok (ys, skip (Z.to_nat (simulations c)) s) /\
    length ys = Z.to_nat (simulations c) /\
    Forall (fun y => y == 100) ys.
Proof.
  intros Hn Ha.
  assert (HT : ~ total_premiums_of c == 0).
  { unfold total_premiums_of. rational_arith. intros E.
    apply Qmult_integral in E. destruct E as [E|E]; [|contradiction].
    change 0 with (inject_Z 0) in E.
    apply (proj1 (inject_Z_injective _ _)) in E. lia. }
  pose proof (is_zero_rational_false _ HT) as HT'.
  destruct (trials_ok c _ HT' (Z.to_nat (simulations c)) [] s)
    as [ys [Hys [Hlen _]]].
  assert (HD : draws_per_trial c = 1%nat).
  { unfold draws_per_trial. replace (Z.to_nat (num_policies c)) with 0%nat
      by lia. reflexivity. }
  rewrite HD, Nat.mul_1_r in Hys.
  exists ys. split; [exact Hys|]. split; [exact Hlen|].
  destruct (simulate_samples c s (fun y => y == 100) HT')
    as (ys' & s' & Hys' & _ & Hall).
  - intros k Hk. assert (k = 0%Z) by lia. subst k.
    unfold yield_value. rational_arith. change (inject_Z 0) with 0.
    field. exact HT.
  - unfold simulate_yield_distribution in Hys'. rewrite Hys in Hys'.
    injection Hys' as E _. simpl in E. now subst ys'.
Qed.

Lemma negative_population_yields_100_witness :
  (num_policies negative_population < 0)%Z /\
  ~ annual_premium negative_population == 0 /\
  exists ys : list Q,
    simulate_yield_distribution negative_population cycle_rng
    = Ok (ys, skip (Z.to_nat (simulations negative_population)) cycle_rng) /\
    length ys = Z.to_nat (simulations negative_population) /\
    Forall (fun y => y == 100) ys.
Proof.
  assert (H1 : (num_policies negative_population < 0)%Z) by reflexivity.
  assert (H2 : ~ annual_premium negative_population == 0)
    by (vm_compute; discriminate).
  split; [exact H1|]. split; [exact H2|].
  exact (negative_population_yields_100 negative_population cycle_rng H1 H2).
Defined.

(** ** The simulator, in rounded arithmetic *)

(** *** The floats next to a float *)

(** The floats of the binade of [2^e] are the multiples [m * 2^(e-52)],
    [2^52 <= m <= 2^53]. *)
Lemma grid_fixed (m e : Z) :
  (2 ^ 52 <= m <= 2 ^ 53)%Z ->
  round53 (inject_Z m * 2 ^ (e - 52)) == inject_Z m * 2 ^ (e - 52).
Proof.
  intros [H1 H2].
  pose proof (pow2_pos (e - 52)) as P.
  assert (M1 : 2 ^ 52 <= inject_Z m).
  { rewrite <- pow2_inject by lia. now rewrite <- Zle_Qle. }
  assert (Hx : 0 < inject_Z m * 2 ^ (e - 52)).
  { apply Qmult_lt_0_compat; [|exact P]. pose proof (pow2_pos 52). lra. }
  rewrite (round53_of_positive _ Hx).
  assert (E1 : 2 ^ e == 2 ^ 52 * 2 ^ (e - 52)).
  { rewrite <- pow2_plus. now replace (52 + (e - 52))%Z with e by lia. }
  assert (E2 : 2 ^ (e + 1) == 2 ^ 53 * 2 ^ (e - 52)).
  { rewrite <- pow2_plus. now replace (53 + (e - 52))%Z with (e + 1)%Z by lia. }
  destruct (Z.eq_dec m (2 ^ 53)) as [E|NE].
  - subst m.
    assert (W : inject_Z (2 ^ 53) * 2 ^ (e - 52) == 2 ^ (e + 1)).
    { rewrite E2, pow2_inject by lia. reflexivity. }
    assert (M : mag (inject_Z (2 ^ 53) * 2 ^ (e - 52)) = (e + 1)%Z).
    { apply mag_unique; rewrite W; [lra|]. apply pow2_lt. lia. }
    apply (round53_pos_fixed _ (2 ^ 52) Hx).
    rewrite M, W, <- pow2_plus, pow2_inject by lia.
    now replace (e + 1 + (52 - (e + 1)))%Z with 52%Z by lia.
  - assert (M2 : inject_Z m < 2 ^ 53).
    { rewrite <- pow2_inject by lia. rewrite <- Zlt_Qlt. lia. }
    assert (M : mag (inject_Z m * 2 ^ (e - 52)) = e).
    { apply mag_unique.
      - rewrite E1. apply Qmult_le_compat_r; lra.
      - rewrite E2. apply Qmult_lt_compat_r; lra. }
    apply (round53_pos_fixed _ m Hx).
    rewrite M, <- Qmult_assoc, <- pow2_plus.
    replace (e - 52 + (52 - e))%Z with 0%Z by lia.
    change (2 ^ 0) with 1. ring.
Qed.

(** A positive rational below the middle of two neighbouring floats rounds
    to the lower one at most. *)
Lemma round53_below_middle (y : Q) (m e : Z) :
  (2 ^ 52 < m <= 2 ^ 53)%Z ->
  y < (inject_Z m - (1 # 2)) * 2 ^ (e - 52) ->
  round53 y <= inject_Z (m - 1) * 2 ^ (e - 52).
Proof.
  intros [H1 H2] Hy.
  pose proof (pow2_pos (e - 52)) as P.
  destruct (Qlt_le_dec (inject_Z (m - 1) * 2 ^ (e - 52)) y) as [L|L].
  - assert (M1 : 2 ^ 52 <= inject_Z (m - 1)).
    { rewrite <- pow2_inject by lia. rewrite <- Zle_Qle. lia. }
    assert (M2 : inject_Z m <= 2 ^ 53).
    { rewrite <- pow2_inject by lia. now rewrite <- Zle_Qle. }
    assert (E1 : 2 ^ e == 2 ^ 52 * 2 ^ (e - 52)).
    { rewrite <- pow2_plus. now replace (52 + (e - 52))%Z with e by lia. }
    assert (E2 : 2 ^ (e + 1) == 2 ^ 53 * 2 ^ (e - 52)).
    { rewrite <- pow2_plus.
      now replace (53 + (e - 52))%Z with (e + 1)%Z by lia. }
    assert (G1 : 2 ^ 52 * 2 ^ (e - 52) <= inject_Z (m - 1) * 2 ^ (e - 52)).
    { apply Qmult_le_compat_r; lra. }
    assert (G2 : (inject_Z m - (1 # 2)) * 2 ^ (e - 52)
                 < 2 ^ 53 * 2 ^ (e - 52)).
    { apply Qmult_lt_compat_r; lra. }
    assert (Hy0 : 0 < y) by (pose proof (pow2_pos e); lra).
    assert (M : mag y = e) by (apply mag_unique; lra).
    rewrite (round53_of_positive _ Hy0). unfold round53_pos. cbv zeta.
    rewrite M. apply Qmult_le_compat_r; [|lra].
    rewrite <- Zle_Qle.
    destruct (round_half_even_error (y * 2 ^ (52 - e))) as [_ R].
    assert (S : y * 2 ^ (52 - e) < inject_Z m - (1 # 2)).
    { apply (Qmult_lt_r _ _ (2 ^ (e - 52)) P).
      rewrite <- Qmult_assoc, <- pow2_plus.
      replace (52 - e + (e - 52))%Z with 0%Z by lia.
      change (2 ^ 0) with 1. lra. }
    assert (Q : inject_Z (round_half_even (y * 2 ^ (52 - e))) < inject_Z m)
      by lra.
    rewrite <- Zlt_Qlt in Q. lia.
  - rewrite <- (grid_fixed (m - 1) e) by lia.
    now apply (rnd_mono round53 round53_rounding).
Qed.

(** *** The hazard rate on doubles *)

(** [a + (b - a) * u], computed with three roundings, does not exceed [b]
    for a draw [u] of at most [1 - 2^-53], the largest double below 1. *)
Lemma uniform_upper (a b u : Q) :
  representable round53 b -> a <= b ->
  0 <= u -> u <= 1 - unit_roundoff ->
  round53 (a + round53 (round53 (b - a) * u)) <= b.
Proof.
  intros Rb Hab Hu0 Hu1.
  apply (rnd_le round53 round53_rounding); [|exact Rb].
  destruct (Qlt_le_dec 0 (b - a)) as [Hx|Hx].
  - set (x := b - a) in *.
    destruct (mantissa_bounds x Hx) as [B1 B2].
    destruct (mag_spec x Hx) as [X1 _].
    destruct (round_half_even_error (x * 2 ^ (52 - mag x))) as [_ R].
    rewrite (round53_of_positive x Hx). unfold round53_pos. cbv zeta.
    set (e := mag x) in *.
    set (m := round_half_even (x * 2 ^ (52 - e))) in *.
    pose proof (pow2_pos (e - 52)) as P.
    set (g := 2 ^ (e - 52)) in *.
    assert (X : x == x * 2 ^ (52 - e) * g).
    { unfold g. rewrite <- Qmult_assoc, <- pow2_plus.
      replace (52 - e + (e - 52))%Z with 0%Z by lia.
      change (2 ^ 0) with 1. ring. }
    assert (D : inject_Z m * g - x <= (1 # 2) * g).
    { rewrite X at 1.
      setoid_replace (inject_Z m * g - x * 2 ^ (52 - e) * g)
        with ((inject_Z m - x * 2 ^ (52 - e)) * g) by ring.
      apply Qmult_le_compat_r; lra. }
    assert (M1 : 2 ^ 52 <= inject_Z m).
    { rewrite <- pow2_inject by lia. now rewrite <- Zle_Qle. }
    assert (E1 : 2 ^ e == 2 ^ 52 * g).
    { unfold g. rewrite <- pow2_plus.
      now replace (52 + (e - 52))%Z with e by lia. }
    assert (Hd : 0 < inject_Z m * g).
    { apply Qmult_lt_0_compat; [|exact P]. pose proof (pow2_pos 52). lra. }
    assert (Y : inject_Z m * g * u
                <= inject_Z m * g - unit_roundoff * (inject_Z m * g)).
    { setoid_replace (inject_Z m * g - unit_roundoff * (inject_Z m * g))
        with (inject_Z m * g * (1 - unit_roundoff)) by ring.
      apply Qmult_le_l; [exact Hd | exact Hu1]. }
    assert (S : round53 (inject_Z m * g * u) <= x).
    { destruct (Z.eq_dec m (2 ^ 52)) as [E|NE].
      - pose proof (grid_fixed m e ltac:(lia)) as GF. fold g in GF.
        apply Qle_trans with (round53 (inject_Z m * g)).
        + apply (rnd_mono round53 round53_rounding).
          setoid_replace (inject_Z m * g) with (inject_Z m * g * 1) at 2
            by ring.
          apply Qmult_le_l; [exact Hd|]. unfold unit_roundoff in Hu1. lra.
        + rewrite GF, E, pow2_inject by lia. rewrite <- E1. exact X1.
      - assert (M2 : 2 ^ 52 + 1 <= inject_Z m).
        { assert (C : 2 ^ 52 + 1 == inject_Z (2 ^ 52 + 1)) by reflexivity.
          rewrite C, <- Zle_Qle. lia. }
        assert (G : (1 # 2) * g < unit_roundoff * (inject_Z m * g)).
        { setoid_replace (unit_roundoff * (inject_Z m * g))
            with (unit_roundoff * inject_Z m * g) by ring.
          apply Qmult_lt_compat_r; [exact P|].
          assert (C : 2 ^ 52 == 4503599627370496) by reflexivity.
          rewrite C in M2. unfold unit_roundoff. lra. }
        apply Qle_trans with (inject_Z (m - 1) * g).
        + apply round53_below_middle; [lia|]. fold g.
          setoid_replace ((inject_Z m - (1 # 2)) * g)
            with (inject_Z m * g - (1 # 2) * g) by ring.
          lra.
        + unfold Z.sub. rewrite inject_Z_plus.
          change (inject_Z (- (1))) with (- (1)).
          setoid_replace ((inject_Z m + - (1)) * g)
            with (inject_Z m * g - g) by ring.
          lra. }
    unfold x in S. lra.
  - assert (E : b - a == 0) by lra.
    rewrite (round53_of_zero _ E).
    assert (E' : 0 * u == 0) by ring.
    rewrite (round53_of_zero _ E'). lra.
Qed.

(** It is not below [a] either, for a draw that is not negative. *)
Lemma uniform_lower (a b u : Q) :
  representable round53 a -> a <= b -> 0 <= u ->
  a <= round53 (a + round53 (round53 (b - a) * u)).
Proof.
  intros Ra Hab Hu.
  apply (rnd_ge round53 round53_rounding); [|exact Ra].
  assert (D : 0 <= round53 (b - a))
    by (apply (rnd_nonneg round53 round53_rounding); lra).
  assert (Y : 0 <= round53 (round53 (b - a) * u)).
  { apply (rnd_nonneg round53 round53_rounding).
    now apply Qmult_le_0_compat. }
  lra.
Qed.

(** X7: on doubles the hazard rate of a trial lies between the two bounds,
    ends included: [random.uniform(p_min, p_max)] stays within
    [p_min, p_max] for bounds that are floats in this order and a draw
    between 0 and [1 - 2^-53], the largest double [random.random()]
    returns. *)
Theorem hazard_rate_within_bounds (c : params Q) (s : rng Q) :
  representable round53 (p_min c) -> representable round53 (p_max c) ->
  p_min c <= p_max c ->
  0 <= tape s (pos s) -> tape s (pos s) <= 1 - unit_roundoff ->
  exists p : Q,
    uniform (num := rounded round53) (p_min c) (p_max c) s
    = Ok (p, skip 1 s) /\
    p_min c <= p /\ p <= p_max c.
Proof.
  intros Ra Rb Hab H0 H1.
  exists (round53 (p_min c
                   + round53 (round53 (p_max c - p_min c) * tape s (pos s)))).
  split; [|split].
  - unfold uniform, bind. rewrite random_step. reflexivity.
  - now apply uniform_lower.
  - now apply uniform_upper.
Qed.

Lemma hazard_rate_within_bounds_witness :
  representable round53 (p_min (default_doubles (num := rounded round53))) /\
  representable round53 (p_max (default_doubles (num := rounded round53))) /\
  p_min (default_doubles (num := rounded round53))
  <= p_max (default_doubles (num := rounded round53)) /\
  0 <= tape (const_rng (1 - unit_roundoff)) 0 /\
  tape (const_rng (1 - unit_roundoff)) 0 <= 1 - unit_roundoff /\
  exists p : Q,
    uniform (num := rounded round53)
            (p_min (default_doubles (num := rounded round53)))
            (p_max (default_doubles (num := rounded round53)))
            (const_rng (1 - unit_roundoff))
    = Ok (p, skip 1 (const_rng (1 - unit_roundoff))) /\
    p_min (default_doubles (num := rounded round53)) <= p /\
    p <= p_max (default_doubles (num := rounded round53)).
Proof.
  assert (H1 : representable round53
                 (p_min (default_doubles (num := rounded round53))))
    by (vm_compute; reflexivity).
  assert (H2 : representable round53
                 (p_max (default_doubles (num := rounded round53))))
    by (vm_compute; reflexivity).
  assert (H3 : p_min (default_doubles (num := rounded round53))
               <= p_max (default_doubles (num := rounded round53)))
    by (vm_compute; discriminate).
  assert (H4 : 0 <= tape (const_rng (1 - unit_roundoff)) 0)
    by (vm_compute; discriminate).
  assert (H5 : tape (const_rng (1 - unit_roundoff)) 0 <= 1 - unit_roundoff)
    by (vm_compute; discriminate).
  split; [exact H1|]. split; [exact H2|]. split; [exact H3|].
  split; [exact H4|]. split; [exact H5|].
  exact (hazard_rate_within_bounds (default_doubles (num := rounded round53))
           (const_rng (1 - unit_roundoff)) H1 H2 H3 H4 H5).
Defined.

(** The upper end is reached: with the default bounds 0.003 and 0.017 and
    the draw [1 - 2^-53] the hazard rate is the bound 0.017 itself, on
    doubles as in [rounded round53]. *)
Example hazard_rate_reaches_p_max :
  (exists p : Q,
      outcome (uniform (num := rounded round53)
                 (p_min (default_doubles (num := rounded round53)))
                 (p_max (default_doubles (num := rounded round53)))
                 (const_rng (1 - unit_roundoff))) = Ok p /\
      p == p_max (default_doubles (num := rounded round53))) /\
  outcome (uniform (num := binary64)
             (p_min default_doubles) (p_max default_doubles)
             (const_rng (sub (of_int 1)
                             (div (of_int 1) (of_int 9007199254740992)))))
  = Ok (p_max default_doubles).
Proof.
  split.
  - eexists. split; vm_compute; reflexivity.
  - vm_compute. reflexivity.
Qed.

(** X8: more events never give a higher sample.  For a valid configuration
    whose charge is a float, and whatever rounding follows the operations,
    the yield the loop body computes for an event count is at most the one
    it computes for any smaller count. *)
Theorem more_events_lower_yield (rnd : Q -> Q) (c : params Q) (k k' : Z)
        (s : rng Q) :
  rounding rnd -> valid_params c ->
  representable rnd (annual_premium c) ->
  (k <= k')%Z ->
  exists y y' : Q,
    yield_of_fires (num := rounded rnd) c
                   (total_premiums_of (num := rounded rnd) c) k s
    = Ok (y, s) /\
    yield_of_fires (num := rounded rnd) c
                   (total_premiums_of (num := rounded rnd) c) k' s
    = Ok (y', s) /\
    y' <= y.
Proof.
  intros Hr Hv Ra Hk.
  destruct (rounded_total_bounds rnd Hr c Hv Ra) as [B R].
  pose proof (rounded_total_nonzero rnd Hr c Hv Ra) as HT.
  destruct Hv as (_ & _ & Ha & Hc & _).
  do 2 eexists.
  split; [now apply (yield_of_fires_ok (num := rounded rnd))|].
  split; [now apply (yield_of_fires_ok (num := rounded rnd))|].
  apply rounded_yield_antitone; [exact Hr | lra | lra | exact Hk].
Qed.

Lemma more_events_lower_yield_witness :
  rounding round53 /\ valid_params small_params /\
  representable round53 (annual_premium small_params) /\
  (1 <= 2)%Z /\
  exists y y' : Q,
    yield_of_fires (num := rounded round53) small_params
                   (total_premiums_of (num := rounded round53) small_params)
                   1 cycle_rng
    = Ok (y, cycle_rng) /\
    yield_of_fires (num := rounded round53) small_params
                   (total_premiums_of (num := rounded round53) small_params)
                   2 cycle_rng
    = Ok (y', cycle_rng) /\
    y' <= y.
Proof.
  assert (H1 : valid_params small_params) by solve_valid.
  assert (H2 : representable round53 (annual_premium small_params))
    by (vm_compute; reflexivity).
  assert (H3 : (1 <= 2)%Z) by lia.
  split; [exact round53_rounding|]. split; [exact H1|]. split; [exact H2|].
  split; [exact H3|].
  exact (more_events_lower_yield round53 small_params 1 2 cycle_rng
           round53_rounding H1 H2 H3).
Defined.

(** ** The summarizer, in exact arithmetic *)

Lemma sum_of_range (ys : list Q) (lo hi : Q) :
  Forall (fun y => lo <= y /\ y <= hi) ys ->
  inject_Z (Z.of_nat (length ys)) * lo <= sum_of ys /\
  sum_of ys <= inject_Z (Z.of_nat (length ys)) * hi.
Proof.
  induction 1 as [|y t [Hl Hh] _ [IHl IHh]].
  - simpl. change (inject_Z 0) with 0. lra.
  - simpl sum_of. simpl length.
    rewrite Nat2Z.inj_succ. unfold Z.succ. rewrite inject_Z_succ.
    split; lra.
Qed.

Lemma count_positive (ys : list Q) :
  ys <> [] -> 0 < inject_Z (Z.of_nat (length ys)).
Proof.
  intros H. change 0 with (inject_Z 0). rewrite <- Zlt_Qlt.
  destruct ys; [contradiction | simpl length; lia].
Qed.

(** The mean lies in every interval that holds all the samples. *)
Lemma np_mean_range (ys : list Q) (lo hi : Q) :
  ys <> [] -> Forall (fun y => lo <= y /\ y <= hi) ys ->
  lo <= np_sum ys / inject_Z (Z.of_nat (length ys)) /\
  np_sum ys / inject_Z (Z.of_nat (length ys)) <= hi.
Proof.
  intros Hne Hall.
  pose proof (count_positive ys Hne) as Hn.
  destruct (sum_of_range ys lo hi Hall) as [Hl Hh].
  rewrite np_sum_sum_of. split.
  - apply Qle_shift_div_l; [exact Hn|]. lra.
  - apply Qle_shift_div_r; [exact Hn|]. lra.
Qed.

(** Where the rank of a percentile lies. *)
Lemma rank_in_range (n : nat) (q : Q) :
  (1 <= n)%nat -> 0 <= q <= 100 ->
  (0 <= Qfloor (q / 100 * (inject_Z (Z.of_nat n) - 1)))%Z /\
  (Qceiling (q / 100 * (inject_Z (Z.of_nat n) - 1)) <= Z.of_nat n - 1)%Z.
Proof.
  intros Hn Hq. destruct (percent_range q Hq) as [Hq0 Hq1].
  set (N := Z.of_nat n).
  assert (HN : 1 <= inject_Z N).
  { change 1 with (inject_Z 1). rewrite <- Zle_Qle. unfold N. lia. }
  set (rank := q / 100 * (inject_Z N - 1)).
  assert (H0 : 0 <= rank) by (apply Qmult_le_0_compat; lra).
  assert (H1 : rank <= inject_Z (N - 1)).
  { assert (0 <= (1 - q / 100) * (inject_Z N - 1))
      by (apply Qmult_le_0_compat; lra).
    rewrite inject_Z_pred. unfold rank. lra. }
  split.
  - change 0%Z with (Qfloor 0). now apply Qfloor_resp_le.
  - rewrite <- (Qceiling_Z (N - 1)). now apply Qceiling_resp_le.
Qed.

(** A percentile lies in every interval that holds all the samples. *)
Lemma spec_percentile_range (s : list Q) (q lo hi : Q) :
  s <> [] -> 0 <= q <= 100 ->
  Forall (fun y => lo <= y /\ y <= hi) s ->
  lo <= spec_percentile s q /\ spec_percentile s q <= hi.
Proof.
  intros Hne Hq Hall.
  assert (Hn : (1 <= length s)%nat).
  { destruct s; [contradiction | simpl; lia]. }
  destruct (rank_in_range (length s) q Hn Hq) as [Hf Hc].
  unfold spec_percentile.
  set (rank := q / 100 * (inject_Z (Z.of_nat (length s)) - 1)) in *.
  pose proof (Qfloor_le rank) as F1. pose proof (Qlt_floor rank) as F2.
  rewrite inject_Z_succ in F2.
  pose proof (Qle_floor_ceiling rank) as F3. rewrite <- Zle_Qle in F3.
  rewrite Forall_forall in Hall.
  destruct (Hall (nth (Z.to_nat (Qfloor rank)) s 0)) as [B1 B2];
    [apply nth_In; lia|].
  destruct (Hall (nth (Z.to_nat (Qceiling rank)) s 0)) as [A1 A2];
    [apply nth_In; lia|].
  set (b := nth (Z.to_nat (Qfloor rank)) s 0) in *.
  set (a := nth (Z.to_nat (Qceiling rank)) s 0) in *.
  set (t := rank - inject_Z (Qfloor rank)).
  assert (T0 : 0 <= t) by (unfold t; lra).
  assert (T1 : 0 <= 1 - t) by (unfold t; lra).
  assert (P1 : 0 <= (1 - t) * (b - lo)) by (apply Qmult_le_0_compat; lra).
  assert (P2 : 0 <= t * (a - lo)) by (apply Qmult_le_0_compat; lra).
  assert (P3 : 0 <= (1 - t) * (hi - b)) by (apply Qmult_le_0_compat; lra).
  assert (P4 : 0 <= t * (hi - a)) by (apply Qmult_le_0_compat; lra).
  split; lra.
Qed.

(** In a sorted array a later position holds a value at least as large. *)
Lemma sorted_nth_le (s : list Q) :
  Sorted Qle s ->
  forall i j : nat, (i <= j)%nat -> (j < length s)%nat ->
                    nth i s 0 <= nth j s 0.
Proof.
  intros HS. apply Sorted_StronglySorted in HS;
    [|intros x y z; apply Qle_trans].
  induction HS as [|a t _ IH Ha]; intros i j Hij Hj.
  - simpl in Hj. lia.
  - destruct j as [|j].
    + assert (i = 0%nat) by lia. subst i. simpl. lra.
    + destruct i as [|i].
      * simpl. rewrite Forall_forall in Ha. apply Ha. apply nth_In.
        simpl in Hj. lia.
      * simpl. apply IH; simpl in Hj; lia.
Qed.

(** Over a sorted array a higher percentile is not smaller. *)
Lemma spec_percentile_mono (s : list Q) (q1 q2 : Q) :
  Sorted Qle s -> s <> [] -> 0 <= q1 -> q1 <= q2 -> q2 <= 100 ->
  spec_percentile s q1 <= spec_percentile s q2.
Proof.
  intros HS Hne H0 H12 H100.
  assert (Hn : (1 <= length s)%nat).
  { destruct s; [contradiction | simpl; lia]. }
  assert (Hq1 : 0 <= q1 <= 100) by (split; lra).
  assert (Hq2 : 0 <= q2 <= 100) by (split; lra).
  destruct (rank_in_range (length s) q1 Hn Hq1) as [Hf1 Hc1].
  destruct (rank_in_range (length s) q2 Hn Hq2) as [Hf2 Hc2].
  assert (HN : 1 <= inject_Z (Z.of_nat (length s))).
  { change 1 with (inject_Z 1). rewrite <- Zle_Qle. lia. }
  unfold spec_percentile.
  set (r1 := q1 / 100 * (inject_Z (Z.of_nat (length s)) - 1)) in *.
  set (r2 := q2 / 100 * (inject_Z (Z.of_nat (length s)) - 1)) in *.
  assert (Hr : r1 <= r2).
  { assert (0 <= (q2 / 100 - q1 / 100)
                 * (inject_Z (Z.of_nat (length s)) - 1)).
    { apply Qmult_le_0_compat; [|lra].
      unfold Qdiv. change (/ 100) with (1 # 100). lra. }
    unfold r1, r2. lra. }
  pose proof (Qfloor_resp_le _ _ Hr) as Hff.
  pose proof (Qfloor_le r1) as A1. pose proof (Qlt_floor r1) as A2.
  pose proof (Qfloor_le r2) as B1. pose proof (Qlt_floor r2) as B2.
  rewrite inject_Z_succ in A2, B2.
  pose proof (Qle_floor_ceiling r1) as A3. rewrite <- Zle_Qle in A3.
  pose proof (Qle_floor_ceiling r2) as B3. rewrite <- Zle_Qle in B3.
  pose proof (Qceiling_lt r1) as A4. rewrite inject_Z_pred in A4.
  pose proof (Qceiling_lt r2) as B4. rewrite inject_Z_pred in B4.
  set (f1 := Qfloor r1) in *. set (c1 := Qceiling r1) in *.
  set (f2 := Qfloor r2) in *. set (c2 := Qceiling r2) in *.
  assert (S1 : nth (Z.to_nat f1) s 0 <= nth (Z.to_nat c1) s 0)
    by (apply sorted_nth_le; [exact HS | lia | lia]).
  assert (S2 : nth (Z.to_nat f2) s 0 <= nth (Z.to_nat c2) s 0)
    by (apply sorted_nth_le; [exact HS | lia | lia]).
  set (t1 := r1 - inject_Z f1). set (t2 := r2 - inject_Z f2).
  assert (T1 : 0 <= t1 /\ t1 <= 1) by (unfold t1; split; lra).
  assert (T2 : 0 <= t2 /\ t2 <= 1) by (unfold t2; split; lra).
  destruct (Z.eq_dec f1 f2) as [E|E].
  - (* the two ranks have the same floor *)
    destruct (Qceiling_floor r1) as [[C1 I1]|C1]; fold c1 f1 in C1.
    + (* the lower rank is an integer *)
      fold f1 in I1.
      assert (Z1 : t1 == 0) by (unfold t1; lra).
      rewrite <- E in *.
      set (b := nth (Z.to_nat f1) s 0) in *.
      set (a1 := nth (Z.to_nat c1) s 0) in *.
      set (a2 := nth (Z.to_nat c2) s 0) in *.
      rewrite Z1.
      assert (0 <= t2 * (a2 - b)) by (apply Qmult_le_0_compat; lra).
      lra.
    + (* neither rank is an integer *)
      assert (C2 : c2 = c1).
      { destruct (Qceiling_floor r2) as [[C2 I2]|C2]; fold c2 f2 in C2.
        - fold f2 in I2. exfalso.
          assert (inject_Z f1 == inject_Z f2) by (now rewrite E).
          assert (inject_Z c1 == inject_Z f1 + 1)
            by (rewrite C1; apply inject_Z_succ).
          lra.
        - lia. }
      rewrite C2, <- E.
      set (b := nth (Z.to_nat f1) s 0) in *.
      set (a := nth (Z.to_nat c1) s 0) in *.
      assert (F : inject_Z f1 == inject_Z f2) by (now rewrite E).
      assert (0 <= (t2 - t1) * (a - b)).
      { apply Qmult_le_0_compat; [unfold t1, t2|]; lra. }
      lra.
  - (* the higher rank has a higher floor *)
    assert (L : (c1 <= f2)%Z).
    { assert ((c1 - 1 < f1 + 1)%Z).
      { rewrite Zlt_Qlt, inject_Z_pred, inject_Z_succ. lra. }
      lia. }
    assert (S3 : nth (Z.to_nat c1) s 0 <= nth (Z.to_nat f2) s 0)
      by (apply sorted_nth_le; [exact HS | lia | lia]).
    set (b1 := nth (Z.to_nat f1) s 0) in *.
    set (a1 := nth (Z.to_nat c1) s 0) in *.
    set (b2 := nth (Z.to_nat f2) s 0) in *.
    set (a2 := nth (Z.to_nat c2) s 0) in *.
    assert (0 <= (1 - t1) * (a1 - b1)) by (apply Qmult_le_0_compat; lra).
    assert (0 <= t2 * (a2 - b2)) by (apply Qmult_le_0_compat; lra).
    lra.
Qed.

Lemma sort_nonempty (ys : list Q) : ys <> [] -> sort ys <> [].
Proof.
  intros Hne E. apply Hne. apply length_zero_iff_nil.
  now rewrite <- sort_length, E.
Qed.

Lemma np_percentile_range (ys : list Q) (q lo hi : Q) :
  ys <> [] -> 0 <= q <= 100 ->
  Forall (fun y => lo <= y /\ y <= hi) ys ->
  exists v : Q, np_percentile ys q = Ok v /\ lo <= v /\ v <= hi.
Proof.
  intros Hne Hq Hall.
  destruct (np_percentile_spec ys q Hne Hq) as [v [Hv Ev]].
  exists v. split; [exact Hv|]. rewrite Ev.
  apply spec_percentile_range; [now apply sort_nonempty | exact Hq|].
  apply (Permutation_Forall (sort_perm ys) Hall).
Qed.

Lemma np_percentile_mono (ys : list Q) (q1 q2 : Q) :
  ys <> [] -> 0 <= q1 -> q1 <= q2 -> q2 <= 100 ->
  exists v1 v2 : Q,
    np_percentile ys q1 = Ok v1 /\ np_percentile ys q2 = Ok v2 /\ v1 <= v2.
Proof.
  intros Hne H0 H12 H100.
  destruct (np_percentile_spec ys q1 Hne) as [v1 [Hv1 E1]]; [split; lra|].
  destruct (np_percentile_spec ys q2 Hne) as [v2 [Hv2 E2]]; [split; lra|].
  exists v1, v2. split; [exact Hv1|]. split; [exact Hv2|].
  rewrite E1, E2.
  apply spec_percentile_mono;
    [apply sort_sorted | now apply sort_nonempty | assumption..].
Qed.

(** X9: the percentiles do not depend on the order of the samples: two
    arrangements of the same non-empty distribution have the same 5th and
    the same 95th percentile. *)
Theorem percentiles_permutation_invariant (ys ys' : list Q) :
  ys <> [] -> Permutation ys ys' ->
  exists r r' : report,
    summarize_and_plot_yields ys = Ok r /\
    summarize_and_plot_yields ys' = Ok r' /\
    p5 r == p5 r' /\ p95 r == p95 r'.
Proof.
  intros Hne HP.
  assert (Hne' : ys' <> []).
  { intros E. subst ys'. apply Permutation_sym, Permutation_nil in HP.
    contradiction. }
  destruct (summarize_nonempty ys Hne) as (a & b & Hr & Ha & Hb).
  destruct (summarize_nonempty ys' Hne') as (a' & b' & Hr' & Ha' & Hb').
  pose proof (sort_perm_eqlist ys ys' HP) as HS.
  do 2 eexists. split; [exact Hr|]. split; [exact Hr'|]. simpl. split.
  - rewrite Ha, Ha'. now apply spec_percentile_compat.
  - rewrite Hb, Hb'. now apply spec_percentile_compat.
Qed.

Lemma percentiles_permutation_invariant_witness :
  [30; 10; 20] <> [] /\ Permutation [30; 10; 20] [10; 20; 30] /\
  exists r r' : report,
    summarize_and_plot_yields [30; 10; 20] = Ok r /\
    summarize_and_plot_yields [10; 20; 30] = Ok r' /\
    p5 r == p5 r' /\ p95 r == p95 r'.
Proof.
  assert (H1 : [30; 10; 20] <> []) by discriminate.
  assert (H2 : Permutation [30; 10; 20] [10; 20; 30])
    by (apply (sort_perm [30; 10; 20])).
  split; [exact H1|]. split; [exact H2|].
  exact (percentiles_permutation_invariant _ _ H1 H2).
Defined.

(** X10: the two percentiles lie in every interval that holds all the
    samples of a non-empty distribution; in particular between the
    smallest and the largest sample. *)
Theorem percentiles_within_sample_range (ys : list Q) (lo hi : Q) :
  ys <> [] -> Forall (fun y => lo <= y /\ y <= hi) ys ->
  exists r : report,
    summarize_and_plot_yields ys = Ok r /\
    (lo <= p5 r /\ p5 r <= hi) /\
    (lo <= p95 r /\ p95 r <= hi).
Proof.
  intros Hne Hall.
  destruct (np_percentile_range ys 5 lo hi Hne) as (a & Ha & Ra);
    [lra | exact Hall|].
  destruct (np_percentile_range ys 95 lo hi Hne) as (b & Hb & Rb);
    [lra | exact Hall|].
  exists (mk_report (np_mean ys) a b). split.
  - unfold summarize_and_plot_yields. now rewrite Ha, Hb.
  - simpl. split; assumption.
Qed.

Lemma percentiles_within_sample_range_witness :
  [30; 10; 20] <> [] /\
  Forall (fun y => 10 <= y /\ y <= 30) [30; 10; 20] /\
  exists r : report,
    summarize_and_plot_yields [30; 10; 20] = Ok r /\
    (10 <= p5 r /\ p5 r <= 30) /\
    (10 <= p95 r /\ p95 r <= 30).
Proof.
  assert (H1 : [30; 10; 20] <> []) by discriminate.
  assert (H2 : Forall (fun y => 10 <= y /\ y <= 30) [30; 10; 20]).
  { repeat constructor; vm_compute; discriminate. }
  split; [exact H1|]. split; [exact H2|].
  exact (percentiles_within_sample_range _ 10 30 H1 H2).
Defined.

(** X11: the 5th percentile of a non-empty distribution is never above its
    95th percentile. *)
Theorem percentiles_ordered (ys : list Q) :
  ys <> [] ->
  exists r : report,
    summarize_and_plot_yields ys = Ok r /\ p5 r <= p95 r.
Proof.
  intros Hne.
  destruct (np_percentile_mono ys 5 95 Hne) as (a & b & Ha & Hb & Hab);
    [lra..|].
  exists (mk_report (np_mean ys) a b). split; [|exact Hab].
  unfold summarize_and_plot_yields. now rewrite Ha, Hb.
Qed.

Lemma percentiles_ordered_witness :
  [30; 10; 20] <> [] /\
  exists r : report,
    summarize_and_plot_yields [30; 10; 20] = Ok r /\ p5 r <= p95 r.
Proof.
  assert (H1 : [30; 10; 20] <> []) by discriminate.
  split; [exact H1 | exact (percentiles_ordered _ H1)].
Defined.

(** ** The simulator and the summarizer together *)

(** The summary of a non-empty distribution whose samples lie in an
    interval. *)
Lemma summary_of_bounded (ys : list Q) (lo hi : Q) :
  ys <> [] -> Forall (fun y => lo <= y /\ y <= hi) ys ->
  exists (r : report) (m : Q),
    summarize_and_plot_yields ys = Ok r /\ mean_yield r = fin m /\
    lo <= m /\ m <= hi /\ lo <= p5 r /\ p5 r <= p95 r /\ p95 r <= hi.
Proof.
  intros Hne Hall.
  destruct (np_percentile_range ys 5 lo hi Hne) as (a & Ha & Ra1 & Ra2);
    [lra | exact Hall|].
  destruct (np_percentile_range ys 95 lo hi Hne) as (b & Hb & Rb1 & Rb2);
    [lra | exact Hall|].
  destruct (np_percentile_mono ys 5 95 Hne) as (a' & b' & Ha' & Hb' & Hab);
    [lra..|].
  assert (a' = a) by congruence. assert (b' = b) by congruence. subst a' b'.
  destruct (np_mean_range ys lo hi Hne Hall) as [M1 M2].
  exists (mk_report (fin (np_sum ys / inject_Z (Z.of_nat (length ys)))) a b).
  eexists. split.
  - unfold summarize_and_plot_yields.
    rewrite Ha, Hb, np_mean_nonempty by exact Hne. reflexivity.
  - simpl. split; [reflexivity|]. repeat split; assumption.
Qed.

(** A successful run: the state it leaves and a property of its samples. *)
Lemma simulate_run (c : params Q) (s : rng Q) (P : Q -> Prop) :
  is_zero (total_premiums_of c) = false ->
  (forall k : Z, (0 <= k <= Z.of_nat (Z.to_nat (num_policies c)))%Z ->
                 P (yield_value c (total_premiums_of c) k)) ->
  exists ys : list Q,
    simulate_yield_distribution c s
    = Ok (ys, skip (Z.to_nat (simulations c) * draws_per_trial c) s) /\
    length ys = Z.to_nat (simulations c) /\ Forall P ys.
Proof.
  intros HT HP.
  destruct (trials_ok c _ HT (Z.to_nat (simulations c)) [] s)
    as [ys [Hys [Hlen _]]].
  destruct (simulate_samples c s P HT HP) as (ys' & s' & Hys' & _ & Hall).
  exists ys. split; [exact Hys|]. split; [exact Hlen|].
  unfold simulate_yield_distribution in Hys'. rewrite Hys in Hys'.
  injection Hys' as E _. simpl in E. now subst ys'.
Qed.

(** X12: for every valid configuration whose charge is a float, and
    whatever rounding follows the operations of the simulator, summarizing
    the distribution the simulator returns succeeds; the two percentiles
    lie between the yield of a year in which every policy has an event and
    100, the 5th not above the 95th, and the mean is at most 100.  When
    the relative error of the rounding is at most [2^-53], the percentiles
    are at least [100 - loss / charge * 100] less the tolerance. *)
Theorem analysis_within_bounds (rnd : Q -> Q) (c : params Q) (s : rng Q) :
  rounding rnd -> valid_params c ->
  representable rnd (annual_premium c) ->
  exists (ys : list Q) (s' : rng Q) (r : report) (m : Q),
    simulate_yield_distribution (num := rounded rnd) c s = Ok (ys, s') /\
    summarize_and_plot_yields ys = Ok r /\ mean_yield r = fin m /\
    m <= 100 /\
    worst_yield rnd c <= p5 r /\ p5 r <= p95 r /\ p95 r <= 100 /\
    (accurate rnd -> lower_bound c - tolerance c <= p5 r).
Proof.
  intros Hr Hv Ra.
  destruct (rounded_run rnd Hr c s Hv Ra) as (ys & s' & Hys & Hlen & Hall).
  assert (Hne : ys <> []).
  { intros E. subst ys. simpl in Hlen. destruct Hv as (_ & Ht & _). lia. }
  destruct (summary_of_bounded ys _ _ Hne Hall)
    as (r & m & Hs & Hm & _ & B2 & B3 & B4 & B5).
  exists ys, s', r, m. repeat split; try assumption.
  intros Hacc. pose proof (worst_yield_accuracy rnd Hr Hacc c Hv). lra.
Qed.

Lemma analysis_within_bounds_witness :
  rounding round53 /\ valid_params thirds /\
  representable round53 (annual_premium thirds) /\
  accurate round53 /\
  exists (ys : list Q) (s' : rng Q) (r : report) (m : Q),
    simulate_yield_distribution (num := rounded round53) thirds
                                (const_rng (1 # 2)) = Ok (ys, s') /\
    summarize_and_plot_yields ys = Ok r /\ mean_yield r = fin m /\
    m <= 100 /\
    worst_yield round53 thirds <= p5 r /\ p5 r <= p95 r /\ p95 r <= 100 /\
    (accurate round53 -> lower_bound thirds - tolerance thirds <= p5 r).
Proof.
  assert (H1 : valid_params thirds) by solve_valid.
  assert (H2 : representable round53 (annual_premium thirds))
    by (vm_compute; reflexivity).
  split; [exact round53_rounding|]. split; [exact H1|]. split; [exact H2|].
  split; [exact round53_accurate|].
  exact (analysis_within_bounds round53 thirds (const_rng (1 # 2))
           round53_rounding H1 H2).
Defined.

Lemma valid_default_params : valid_params default_params.
Proof. solve_valid. Qed.

(** X13: the script itself never fails.  Whatever the generator draws,
    the run with the default parameters returns its 10000 samples after
    10000 x 1001 draws, and the report shows a mean and two percentiles
    between -4900 and 100, the 5th percentile not above the 95th. *)
Theorem main_always_reports (s : rng Q) :
  exists (r : report) (m : Q),
    main s
    = Ok (r, skip (Z.to_nat (simulations default_params)
                   * draws_per_trial default_params) s) /\
    (simulations default_params = 10000%Z /\
     draws_per_trial default_params = 1001%nat) /\
    mean_yield r = fin m /\
    -4900 <= m /\ m <= 100 /\
    -4900 <= p5 r /\ p5 r <= p95 r /\ p95 r <= 100.
Proof.
  pose proof valid_default_params as Hv.
  destruct (simulate_run default_params s
              (fun y => lower_bound default_params <= y /\ y <= 100)
              (valid_total_nonzero _ Hv))
    as (ys & Hys & Hlen & Hall).
  - intros k Hk. apply yield_value_bounds; [exact Hv|].
    destruct Hv as (Hn & _). lia.
  - assert (Hne : ys <> []).
    { intros E. subst ys. simpl length in Hlen.
      change (simulations default_params) with 10000%Z in Hlen. lia. }
    destruct (summary_of_bounded ys _ _ Hne Hall)
      as (r & m & Hr & Hm & B1 & B2 & B3 & B4 & B5).
    assert (HL : lower_bound default_params == -4900)
      by (vm_compute; reflexivity).
    exists r, m. split.
    + unfold main. now rewrite Hys, Hr.
    + split; [split; reflexivity|]. split; [exact Hm|].
      rewrite HL in B1, B3. repeat split; assumption.
Qed.
